(** * Lightbox navigation and gallery re-scan of [script.js]

    A shallow embedding of the first closure of [script.js] (the
    "LIGHTBOX / GALLERY" part, lines 115-291): the module variables
    [figures], [images], [current], [isOpen] and [pointerSwipe], the
    functions [scanGallery], [refreshGallery], [openAt], [closeLB],
    [update], [next], [prev] and [preloadNeighbors], and the event
    handlers that call them.

    The page is part of the state: the gallery container with its
    [.gallery-item] elements, the optional lightbox nodes, the expando
    property [_bound] and the listeners of every element, the queue of
    pending [setTimeout] callbacks, and the log of image fetches started
    by [new Image().src = ...].

    JavaScript numbers that the code uses as indices are integers; they
    are modelled in [Z], with [%] as the truncating remainder [Z.rem] and
    [x % 0] as [NaN]. *)

From stdpp Require Import gmap strings list pretty.

Open Scope Z_scope.

(** ** JavaScript primitives *)

(** The result of [a % b] on integers: [NaN] when the divisor is zero. *)
Inductive jsnum : Type :=
| Num (z : Z)
| NaN.

Definition js_rem (a b : Z) : jsnum :=
  if decide (b = 0) then NaN else Num (Z.rem a b).

(** [arr[n]]: [undefined] ([None]) for [NaN], for a negative number and
    past the end. *)
Definition js_index {A : Type} (arr : list A) (n : jsnum) : option A :=
  match n with
  | NaN => None
  | Num z => if decide (z < 0) then None else arr !! Z.to_nat z
  end.

(** [a || b] on strings, where [a] may be [undefined]: the empty string
    and [undefined] are falsy. *)
Definition js_or (a : option string) (b : string) : string :=
  match a with
  | Some v => if decide (v = "") then b else v
  | None => b
  end.

(** ** The page *)

(** An [img] element: its resolved [src], its [data-large] attribute and
    its [alt] attribute (both optional in the markup). *)
Record Img : Type := mkImg {
  src : string;
  data_large : option string;
  alt_attr : option string
}.

(** [img.alt] reflects the attribute and is the empty string without it. *)
Definition img_alt (img : Img) : string := default "" (alt_attr img).

(** A [.gallery-item] element, named by its identity, with the first
    [img] below it, as [fig.querySelector('img')] finds it. *)
Record Item : Type := mkItem {
  item_id : nat;
  item_img : option Img
}.

(** The closures that [scanGallery] registers; each captures the loop
    index [i]. *)
Inductive Listener : Type :=
| OnClick (i : nat)
| OnKeydown (i : nat).

(** What the script keeps on an element: the expando [_bound] and the
    listeners added with [addEventListener], oldest first. *)
Record ElemProps : Type := mkElemProps {
  bound : bool;
  listeners : list Listener
}.

Definition fresh_elem : ElemProps := {| bound := false; listeners := [] |}.

(** The [#lbImage] element. *)
Record LbImage : Type := mkLbImage {
  img_src : string;
  img_alt_text : string;
  opacity : string;
  transition : string
}.

(** ** The script's data *)

(** An element of [images]: [{ thumb, large, alt, el }]. *)
Record Entry : Type := mkEntry {
  thumb : string;
  large : string;
  alt : string;
  el : nat
}.

Record Swipe : Type := mkSwipe {
  active : bool;
  startX : Z;
  dist : Z
}.

Record State : Type := mkState {
  (* the page *)
  galleryContainer : option (list Item); (* [None]: no #gallery, no #galleryGrid *)
  elems : gmap nat ElemProps;
  lb : option string;                    (* #lightbox and its aria-hidden *)
  lbImage : option LbImage;
  lbCaption : option string;             (* #lbCaption and its textContent *)
  lbStageEl : bool;                      (* is there a #lbStage *)
  bodyOverflow : string;
  focusCalls : nat;                      (* completed calls of lbStage.focus() *)
  (* the closure's variables *)
  figures : list nat;
  images : list Entry;
  current : Z;
  isOpen : bool;
  pointerSwipe : Swipe;
  (* the runtime *)
  timers : list (option Entry);          (* pending callbacks of [update], with their [it] *)
  fetches : list string                  (* [src] given to each [new Image()] *)
}.

(** Field updates. *)
Definition set_elems (v : gmap nat ElemProps) (s : State) : State :=
  mkState (galleryContainer s) v (lb s) (lbImage s) (lbCaption s) (lbStageEl s)
    (bodyOverflow s) (focusCalls s) (figures s) (images s) (current s) (isOpen s)
    (pointerSwipe s) (timers s) (fetches s).
Definition set_galleryContainer (v : option (list Item)) (s : State) : State :=
  mkState v (elems s) (lb s) (lbImage s) (lbCaption s) (lbStageEl s)
    (bodyOverflow s) (focusCalls s) (figures s) (images s) (current s) (isOpen s)
    (pointerSwipe s) (timers s) (fetches s).
Definition set_lb (v : option string) (s : State) : State :=
  mkState (galleryContainer s) (elems s) v (lbImage s) (lbCaption s) (lbStageEl s)
    (bodyOverflow s) (focusCalls s) (figures s) (images s) (current s) (isOpen s)
    (pointerSwipe s) (timers s) (fetches s).
Definition set_lbImage (v : option LbImage) (s : State) : State :=
  mkState (galleryContainer s) (elems s) (lb s) v (lbCaption s) (lbStageEl s)
    (bodyOverflow s) (focusCalls s) (figures s) (images s) (current s) (isOpen s)
    (pointerSwipe s) (timers s) (fetches s).
Definition set_lbCaption (v : option string) (s : State) : State :=
  mkState (galleryContainer s) (elems s) (lb s) (lbImage s) v (lbStageEl s)
    (bodyOverflow s) (focusCalls s) (figures s) (images s) (current s) (isOpen s)
    (pointerSwipe s) (timers s) (fetches s).
Definition set_bodyOverflow (v : string) (s : State) : State :=
  mkState (galleryContainer s) (elems s) (lb s) (lbImage s) (lbCaption s) (lbStageEl s)
    v (focusCalls s) (figures s) (images s) (current s) (isOpen s)
    (pointerSwipe s) (timers s) (fetches s).
Definition set_focusCalls (v : nat) (s : State) : State :=
  mkState (galleryContainer s) (elems s) (lb s) (lbImage s) (lbCaption s) (lbStageEl s)
    (bodyOverflow s) v (figures s) (images s) (current s) (isOpen s)
    (pointerSwipe s) (timers s) (fetches s).
Definition set_figures (v : list nat) (s : State) : State :=
  mkState (galleryContainer s) (elems s) (lb s) (lbImage s) (lbCaption s) (lbStageEl s)
    (bodyOverflow s) (focusCalls s) v (images s) (current s) (isOpen s)
    (pointerSwipe s) (timers s) (fetches s).
Definition set_images (v : list Entry) (s : State) : State :=
  mkState (galleryContainer s) (elems s) (lb s) (lbImage s) (lbCaption s) (lbStageEl s)
    (bodyOverflow s) (focusCalls s) (figures s) v (current s) (isOpen s)
    (pointerSwipe s) (timers s) (fetches s).
Definition set_current (v : Z) (s : State) : State :=
  mkState (galleryContainer s) (elems s) (lb s) (lbImage s) (lbCaption s) (lbStageEl s)
    (bodyOverflow s) (focusCalls s) (figures s) (images s) v (isOpen s)
    (pointerSwipe s) (timers s) (fetches s).
Definition set_isOpen (v : bool) (s : State) : State :=
  mkState (galleryContainer s) (elems s) (lb s) (lbImage s) (lbCaption s) (lbStageEl s)
    (bodyOverflow s) (focusCalls s) (figures s) (images s) (current s) v
    (pointerSwipe s) (timers s) (fetches s).
Definition set_pointerSwipe (v : Swipe) (s : State) : State :=
  mkState (galleryContainer s) (elems s) (lb s) (lbImage s) (lbCaption s) (lbStageEl s)
    (bodyOverflow s) (focusCalls s) (figures s) (images s) (current s) (isOpen s)
    v (timers s) (fetches s).
Definition set_timers (v : list (option Entry)) (s : State) : State :=
  mkState (galleryContainer s) (elems s) (lb s) (lbImage s) (lbCaption s) (lbStageEl s)
    (bodyOverflow s) (focusCalls s) (figures s) (images s) (current s) (isOpen s)
    (pointerSwipe s) v (fetches s).
Definition set_fetches (v : list string) (s : State) : State :=
  mkState (galleryContainer s) (elems s) (lb s) (lbImage s) (lbCaption s) (lbStageEl s)
    (bodyOverflow s) (focusCalls s) (figures s) (images s) (current s) (isOpen s)
    (pointerSwipe s) (timers s) v.

(** ** Statements: state and exceptions

    A statement runs on a state and either completes with a value or
    throws (a [TypeError] is the only exception these functions can
    raise); what it wrote before throwing stays written. *)
Definition M (A : Type) : Type := State -> State * option A.

Definition ret {A : Type} (a : A) : M A := fun s => (s, Some a).
Definition throw {A : Type} : M A := fun s => (s, None).
Definition bind {A B : Type} (m : M A) (k : A -> M B) : M B :=
  fun s => match m s with
           | (s', Some a) => k a s'
           | (s', None) => (s', None)
           end.
Definition get : M State := fun s => (s, Some s).
Definition modify (f : State -> State) : M unit := fun s => (f s, Some tt).

(** [try { m } catch (e) {}] *)
Definition try_catch (m : M unit) : M unit :=
  fun s => (fst (m s), Some tt).

Notation "x <- m ;; k" := (bind m (fun x => k))
  (at level 100, m at next level, right associativity).
Notation "m ;; k" := (bind m (fun _ => k))
  (at level 100, right associativity).

(** The state a statement leaves, and whether it completed. *)
Definition exec {A : Type} (m : M A) (s : State) : State := fst (m s).
Definition completes {A : Type} (m : M A) (s : State) : bool :=
  bool_decide (is_Some (snd (m s))).

(** [arr.forEach((x, i) => f x i)], counting from [i]. *)
Fixpoint forEach_from {A : Type} (f : A -> nat -> M unit) (arr : list A) (i : nat)
  : M unit :=
  match arr with
  | [] => ret tt
  | x :: rest => f x i ;; forEach_from f rest (S i)
  end.

Definition forEach {A : Type} (f : A -> nat -> M unit) (arr : list A) : M unit :=
  forEach_from f arr 0%nat.

(** ** The closure's functions *)

(** [images.length] *)
Definition images_length (s : State) : Z := Z.of_nat (length (images s)).

(** The script's properties of element [e]; an element it never touched
    has no [_bound] and no listener. *)
Definition props (s : State) (e : nat) : ElemProps :=
  default fresh_elem (elems s !! e).

Definition addEventListener (e : nat) (l : Listener) : M unit :=
  modify (fun s =>
    set_elems (<[e := mkElemProps (bound (props s e)) (listeners (props s e) ++ [l])]>
                 (elems s)) s).

(** [fig._bound = b]; [delete fig._bound] is [set_bound fig false]. *)
Definition set_bound (e : nat) (b : bool) : M unit :=
  modify (fun s =>
    set_elems (<[e := mkElemProps b (listeners (props s e))]> (elems s)) s).

(** Lines 138-146: the callback of [nodes.forEach]. *)
Definition scan_item (fig : Item) (i : nat) : M unit :=
  match item_img fig with
  | None => ret tt
  | Some img =>
      let thumb := src img in
      let large := js_or (data_large img) (src img) in
      let alt := js_or (Some (img_alt img)) ("Image " +:+ pretty (i + 1)%nat) in
      modify (fun s => set_figures (figures s ++ [item_id fig]) s) ;;
      modify (fun s => set_images (images s ++ [mkEntry thumb large alt (item_id fig)]) s)
  end.

(** Lines 148-158: the callback of [figures.forEach]. The assignment to
    [fig.tabIndex] writes back the value the property already has (the
    property of an element is never [undefined]). *)
Definition bind_item (fig : nat) (i : nat) : M unit :=
  s <- get ;;
  if bound (props s fig) then ret tt
  else
    addEventListener fig (OnClick i) ;;
    addEventListener fig (OnKeydown i) ;;
    set_bound fig true.

Definition scanGallery : M unit :=
  modify (set_figures []) ;;
  modify (set_images []) ;;
  s <- get ;;
  match galleryContainer s with
  | None => ret tt
  | Some nodes =>
      forEach scan_item nodes ;;
      s' <- get ;;
      forEach bind_item (figures s')
  end.

Definition refreshGallery : M unit :=
  s <- get ;;
  (if decide (length (figures s) = 0%nat) then ret tt
   else forEach (fun f _ => try_catch (set_bound f false)) (figures s)) ;;
  scanGallery.

(** [lbStage] is [#lbStage], or [lbImage] when there is none; calling
    [focus] on [null] throws. *)
Definition focus_stage : M unit :=
  s <- get ;;
  if lbStageEl s || bool_decide (is_Some (lbImage s))
  then modify (set_focusCalls (S (focusCalls s)))
  else throw.

(** A write to a property of [lbImage]; on [null] it throws. *)
Definition write_lbImage (f : LbImage -> LbImage) : M unit :=
  s <- get ;;
  match lbImage s with
  | None => throw
  | Some im => modify (set_lbImage (Some (f im)))
  end.

(** Lines 225-231. Each [img.src = url] on a new [Image] starts a fetch
    of [url]; [images[n].large] throws when [images[n]] is [undefined]. *)
Definition preloadNeighbors (idx : Z) : M unit :=
  forEach (fun offset _ =>
    s <- get ;;
    let n := js_rem (idx + offset + images_length s) (images_length s) in
    match js_index (images s) n with
    | None => throw
    | Some e => modify (fun s' => set_fetches (fetches s' ++ [large e]) s')
    end) [-1; 1].

(** Lines 204-210: the function given to [setTimeout], with the [it] it
    captured. *)
Definition update_callback (it : option Entry) : M unit :=
  match it with
  | None => throw
  | Some e =>
      write_lbImage (fun im => mkLbImage (large e) (img_alt_text im) (opacity im) (transition im)) ;;
      write_lbImage (fun im => mkLbImage (img_src im) (alt e) (opacity im) (transition im)) ;;
      modify (fun s => match lbCaption s with
                       | Some _ => set_lbCaption (Some (alt e)) s
                       | None => s
                       end) ;;
      write_lbImage (fun im => mkLbImage (img_src im) (img_alt_text im) "1" (transition im)) ;;
      s <- get ;;
      preloadNeighbors (current s)
  end.

(** Lines 198-211. *)
Definition update : M unit :=
  s <- get ;;
  if decide (images_length s = 0) then ret tt
  else match lbImage s with
       | None => ret tt
       | Some _ =>
           let it := js_index (images s) (Num (current s)) in
           write_lbImage (fun im => mkLbImage (img_src im) (img_alt_text im) (opacity im) "opacity 140ms") ;;
           write_lbImage (fun im => mkLbImage (img_src im) (img_alt_text im) "0" (transition im)) ;;
           modify (fun s' => set_timers (timers s' ++ [it]) s')
       end.

(** Lines 180-189. Behind the guard [images.length] is not zero, so both
    [%] give numbers: the truncating remainder. *)
Definition openAt (index : Z) : M unit :=
  s <- get ;;
  if decide (images_length s = 0) then ret tt
  else match lb s with
       | None => ret tt
       | Some _ =>
           modify (set_current
                     (Z.rem (Z.rem index (images_length s) + images_length s)
                            (images_length s))) ;;
           update ;;
           modify (set_bodyOverflow "hidden") ;;
           modify (set_lb (Some "false")) ;;
           modify (set_isOpen true) ;;
           try_catch focus_stage
       end.

(** Lines 191-196. *)
Definition closeLB : M unit :=
  s <- get ;;
  match lb s with
  | None => ret tt
  | Some _ =>
      modify (set_lb (Some "true")) ;;
      modify (set_bodyOverflow "") ;;
      modify (set_isOpen false)
  end.

(** Lines 213-222. *)
Definition next : M unit :=
  s <- get ;;
  if decide (images_length s = 0) then ret tt
  else
    modify (set_current (Z.rem (current s + 1) (images_length s))) ;;
    update.

Definition prev : M unit :=
  s <- get ;;
  if decide (images_length s = 0) then ret tt
  else
    modify (set_current (Z.rem (current s - 1 + images_length s) (images_length s))) ;;
    update.

(** ** Events

    Everything runs on one thread: an event runs its handlers to the end,
    and an exception that leaves a handler is reported and dropped. *)
Inductive Event : Type :=
| ApiOpenAt (i : Z)            (* window.galleryLightbox.openAt(i) *)
| ApiClose
| ApiNext
| ApiPrev
| ApiRefresh
| ClickFigure (e : nat)
| KeydownFigure (e : nat) (key : string)
| Keydown (key : string)       (* a key pressed elsewhere in the document *)
| ClickNext                    (* on #lbNext *)
| ClickPrev                    (* on #lbPrev *)
| ClickClose                   (* on #lbClose *)
| ClickBackdrop                (* on #lightbox itself *)
| PointerDown (x : Z)          (* on lbStage; [clientX] in whole pixels *)
| PointerMove (x : Z)
| PointerUp
| PointerCancel
| TimerFires                   (* the oldest pending timeout runs *)
| ImageSrcObserved             (* the observer of lbImage's [src] *)
| GalleryMutated (nodes : list Item) (* the page changes the gallery *)
| GalleryObserved.             (* the debounced observer of the gallery *)

(** A listener of a figure called on a click. *)
Definition on_click (l : Listener) : M unit :=
  match l with
  | OnClick i => openAt (Z.of_nat i)
  | OnKeydown _ => ret tt
  end.

(** A listener of a figure called on a keydown (lines 152-154). *)
Definition on_keydown (key : string) (l : Listener) : M unit :=
  match l with
  | OnClick _ => ret tt
  | OnKeydown i =>
      if bool_decide (key = "Enter") || bool_decide (key = " ")
      then openAt (Z.of_nat i) else ret tt
  end.

(** Calls the listeners one after the other; one that throws does not
    stop the others. *)
Fixpoint call_listeners (h : Listener -> M unit) (ls : list Listener) (s : State)
  : State :=
  match ls with
  | [] => s
  | l :: rest => call_listeners h rest (exec (h l) s)
  end.

(** Lines 246-251: the document's keydown handler. *)
Definition document_keydown (key : string) : M unit :=
  s <- get ;;
  if negb (isOpen s) then ret tt
  else if bool_decide (key = "Escape") then closeLB
  else if bool_decide (key = "ArrowRight") then next
  else if bool_decide (key = "ArrowLeft") then prev
  else ret tt.

(** Lines 264-271. *)
Definition pointerup : M unit :=
  s <- get ;;
  if negb (active (pointerSwipe s)) then ret tt
  else
    (if decide (dist (pointerSwipe s) > 40) then prev
     else if decide (dist (pointerSwipe s) < -40) then next
     else ret tt) ;;
    modify (fun s' => set_pointerSwipe
                        (mkSwipe false (startX (pointerSwipe s')) (dist (pointerSwipe s'))) s') ;;
    modify (fun s' => set_pointerSwipe
                        (mkSwipe (active (pointerSwipe s')) (startX (pointerSwipe s')) 0) s').

Definition step (ev : Event) (s : State) : State :=
  match ev with
  | ApiOpenAt i => exec (openAt i) s
  | ApiClose | ClickClose => exec closeLB s
  | ApiNext | ClickNext => exec next s
  | ApiPrev | ClickPrev => exec prev s
  | ApiRefresh | GalleryObserved => exec refreshGallery s
  | ClickFigure e => call_listeners on_click (listeners (props s e)) s
  | KeydownFigure e key =>
      exec (document_keydown key)
           (call_listeners (on_keydown key) (listeners (props s e)) s)
  | Keydown key => exec (document_keydown key) s
  | ClickBackdrop => exec closeLB s
  | PointerDown x =>
      set_pointerSwipe (mkSwipe true x (dist (pointerSwipe s))) s
  | PointerMove x =>
      if active (pointerSwipe s)
      then set_pointerSwipe
             (mkSwipe true (startX (pointerSwipe s)) (x - startX (pointerSwipe s))) s
      else s
  | PointerUp => exec pointerup s
  | PointerCancel =>
      set_pointerSwipe (mkSwipe false (startX (pointerSwipe s)) 0) s
  | TimerFires =>
      match timers s with
      | [] => s
      | it :: rest => exec (update_callback it) (set_timers rest s)
      end
  | ImageSrcObserved => exec (preloadNeighbors (current s)) s
  | GalleryMutated nodes =>
      match galleryContainer s with
      | None => s
      | Some _ => set_galleryContainer (Some nodes) s
      end
  end.

Definition run (evs : list Event) (s : State) : State :=
  foldl (fun st ev => step ev st) s evs.

(** The state when the script has run: the variables at their initial
    values (lines 126-130), then the initial scan (line 162). *)
Definition page (gallery : option (list Item)) (lightbox : option string)
    (image : option LbImage) (caption : option string) (stage : bool)
    (overflow : string) : State :=
  mkState gallery ∅ lightbox image caption stage overflow 0%nat
          [] [] 0 false (mkSwipe false 0 0) [] [].

Definition loaded (gallery : option (list Item)) (lightbox : option string)
    (image : option LbImage) (caption : option string) (stage : bool)
    (overflow : string) : State :=
  exec scanGallery (page gallery lightbox image caption stage overflow).

(** The states the page can be in. *)
Inductive reachable : State -> Prop :=
| reachable_loaded gallery lightbox image caption stage overflow :
    reachable (loaded gallery lightbox image caption stage overflow)
| reachable_step ev s :
    reachable s -> reachable (step ev s).


(** ** The first loop of [scanGallery], read as a function *)

(** The object pushed for the item [fig] with image [img] at loop index
    [i]. *)
Definition entry_of (fig : Item) (img : Img) (i : nat) : Entry :=
  mkEntry (src img)
          (js_or (data_large img) (src img))
          (js_or (Some (img_alt img)) ("Image " +:+ pretty (i + 1)%nat))
          (item_id fig).

(** What the loop over [nodes], counted from [i], appends to [images]. *)
Fixpoint scanned (nodes : list Item) (i : nat) : list Entry :=
  match nodes with
  | [] => []
  | fig :: rest =>
      match item_img fig with
      | None => scanned rest (S i)
      | Some img => entry_of fig img i :: scanned rest (S i)
      end
  end.

Definition has_img (fig : Item) : bool := bool_decide (is_Some (item_img fig)).

(** How many of the first [i] items have an image: the place in [images]
    of the entry of item [i]. *)
Definition entries_before (nodes : list Item) (i : nat) : nat :=
  length (filter (fun fig => has_img fig = true) (take i nodes)).

(** ** Example pages *)

Definition photo (id : nat) (url : string) : Item :=
  mkItem id (Some (mkImg url None None)).

(** Three items with the full-size URLs A, B and C. *)
Definition three_photos : list Item :=
  [photo 1 "A"; photo 2 "B"; photo 3 "C"].

Definition one_photo : list Item := [photo 1 "A"].

(** An item without an image, then an item whose image has no [alt]. *)
Definition text_then_photo : list Item :=
  [mkItem 1 None; photo 2 "b.jpg"].

(** An image with [data-large=""] and the source thumb.jpg. *)
Definition empty_large : list Item :=
  [mkItem 1 (Some (mkImg "thumb.jpg" (Some "") None))].

(** An image without [data-large] and with the source thumb.jpg. *)
Definition no_large : list Item :=
  [mkItem 1 (Some (mkImg "thumb.jpg" None None))].

Definition blank_image : LbImage := mkLbImage "" "" "" "".

(** A page with the whole lightbox, loaded with the given gallery. *)
Definition with_lightbox (gallery : list Item) : State :=
  loaded (Some gallery) (Some "true") (Some blank_image) (Some "") true "".


(** ** More of the first closure *)

(** The swipe decision of [pointerup] (lines 266-268). *)
Definition swipe_navigation (d : Z) : M unit :=
  if decide (d > 40) then prev
  else if decide (d < -40) then next
  else ret tt.

(** What the callback of [update] writes for the entry [e] on a page
    whose image element is [im] (lines 205-208): source, alt text,
    caption when there is a caption element, full opacity. *)
Definition show_entry (e : Entry) (im : LbImage) (s : State) : State :=
  set_lbImage (Some (mkLbImage (large e) (alt e) "1" (transition im)))
    (match lbCaption s with
     | Some _ => set_lbCaption (Some (alt e)) s
     | None => s
     end).

(** The listeners that [k] scans bind for the entry at position [p]
    (lines 151-154, once per scan). *)
Definition bound_handlers (p k : nat) : list Listener :=
  concat (replicate k [OnClick p; OnKeydown p]).

(** Every pending display update holds an entry, and there is an image
    element to show it on. *)
Definition pending_ok (s : State) : Prop :=
  Forall is_Some (timers s) /\ (timers s <> [] -> is_Some (lbImage s)).

(** While the viewer is open the lightbox element is there and shown. *)
Definition open_ok (s : State) : Prop :=
  isOpen s = true -> lb s = Some "false".

(** Outside a drag the recorded distance is zero. *)
Definition swipe_ok (s : State) : Prop :=
  active (pointerSwipe s) = false -> dist (pointerSwipe s) = 0.

(** ** [debounce] (lines 20-26)

    [debounce(fn, wait)] returns a function that keeps one variable [t],
    the handle of its last timeout: a call cancels that timeout and sets
    a new one, whose callback will call [fn] with the arguments of the
    call. The delay itself is not modelled: a timeout is pending until
    the page fires it. *)
Module Debounce.

(** The pending timeouts of the page, oldest first: each with its handle
    and with what its callback will pass on. Handles are numbered
    upwards and none is given out twice. *)
Record Table (A : Type) : Type := mkTable {
  next_handle : nat;
  pending : list (nat * A)
}.
Arguments mkTable {A} _ _.
Arguments next_handle {A} _.
Arguments pending {A} _.

Definition setTimeout {A : Type} (a : A) (tab : Table A) : Table A * nat :=
  (mkTable (S (next_handle tab)) (pending tab ++ [(next_handle tab, a)]),
   next_handle tab).

(** [clearTimeout(t)]: nothing happens for [undefined] and for a handle
    that is no longer pending. *)
Definition clearTimeout {A : Type} (t : option nat) (tab : Table A) : Table A :=
  match t with
  | None => tab
  | Some h => mkTable (next_handle tab) (filter (fun p => p.1 <> h) (pending tab))
  end.

(** Lines 22-25: one call of the returned function, on the timeouts of
    the page and on its own [t]. *)
Definition debounced {A : Type} (args : A) (st : Table A * option nat)
  : Table A * option nat :=
  let (tab, h) := setTimeout args (clearTimeout st.2 st.1) in (tab, Some h).

(** Calls one after the other, with no timeout firing in between. *)
Definition calls {A : Type} (argss : list A) (st : Table A * option nat)
  : Table A * option nat :=
  foldl (fun st' args => debounced args st') st argss.

(** The timeout [h] fires: it is no longer pending, and when it was, its
    callback passes its arguments on. *)
Definition fire {A : Type} (h : nat) (tab : Table A) : Table A * option A :=
  (mkTable (next_handle tab) (filter (fun p => p.1 <> h) (pending tab)),
   snd <$> head (filter (fun p => p.1 = h) (pending tab))).

(** Every pending handle was given out before. *)
Definition well_formed {A : Type} (tab : Table A) : Prop :=
  Forall (fun p => (p.1 < next_handle tab)%nat) (pending tab).

End Debounce.

(** ** The navbar (lines 28-66), on a page with [#navToggle] and
    [#navLinks] *)
Module Navbar.

Record Nav : Type := mkNav {
  linksOpen : bool;             (* navLinks has the class open *)
  toggleOpen : bool;            (* navToggle has the class open *)
  ariaExpanded : option string; (* navToggle's aria-expanded *)
  activeLinks : list bool       (* for each [a] of linkEls: has the class active *)
}.

Inductive NavEvent : Type :=
| ToggleClick
  (* a click inside navLinks: on or below the [link]-th anchor of
     linkEls, or elsewhere; [tagName] is that of the element clicked *)
| LinksClick (link : option nat) (tagName : string)
| NavKeydown (key : string).

(** Lines 39-41 and 48-50. *)
Definition close_menu (n : Nav) : Nav :=
  mkNav false false (Some "false") (activeLinks n).

(** Lines 29-33. *)
Definition toggle_click (n : Nav) : Nav :=
  let open := negb (linksOpen n) in
  mkNav open open (Some (if open then "true" else "false")) (activeLinks n).

(** Lines 36-43. *)
Definition delegated_click (tagName : string) (n : Nav) : Nav :=
  if bool_decide (tagName = "A") && linksOpen n then close_menu n else n.

(** Lines 46-52. *)
Definition escape_key (key : string) (n : Nav) : Nav :=
  if bool_decide (key = "Escape") && linksOpen n then close_menu n else n.

(** Lines 58-61: the listener of the [j]-th anchor. *)
Definition link_click (j : nat) (n : Nav) : Nav :=
  mkNav (linksOpen n) (toggleOpen n) (ariaExpanded n)
        (<[j := true]> ((fun _ => false) <$> activeLinks n)).

(** The anchor's own listener runs before the one of navLinks, to which
    the click bubbles. *)
Definition nav_step (ev : NavEvent) (n : Nav) : Nav :=
  match ev with
  | ToggleClick => toggle_click n
  | LinksClick link tagName =>
      delegated_click tagName
        (match link with
         | Some j => link_click j n
         | None => n
         end)
  | NavKeydown key => escape_key key n
  end.

Definition nav_run (evs : list NavEvent) (n : Nav) : Nav :=
  foldl (fun st ev => nav_step ev st) n evs.

(** The three signs of an open menu agree. *)
Definition in_sync (n : Nav) : Prop :=
  toggleOpen n = linksOpen n /\
  ariaExpanded n = Some (if linksOpen n then "true" else "false").

End Navbar.

(** ** The search filter and the second show-all handler
    (lines 441-461) *)
Module Search.

(** A [.gallery-item] as these handlers see it: its [data-name]
    attribute and its [style.display]. *)
Record GalleryItem : Type := mkGalleryItem {
  data_name : option string;
  display : string
}.

Section Filter.
(** [String.prototype.toLowerCase] and [String.prototype.includes]. *)
Variable toLowerCase : string -> string.
Variable includes : string -> string -> bool.

(** Lines 454-459; [getAttribute] gives [null] without the attribute,
    and [null.toLowerCase()] throws. *)
Definition filter_item (filter : string) (it : GalleryItem) : option GalleryItem :=
  match data_name it with
  | None => None
  | Some name =>
      Some (mkGalleryItem (Some name)
              (if includes (toLowerCase name) filter then "" else "none"))
  end.

(** [images.forEach]: the items after the loop, and whether it
    completed; a throw leaves the rest of the items as they were. *)
Fixpoint filter_loop (filter : string) (items : list GalleryItem)
  : list GalleryItem * bool :=
  match items with
  | [] => ([], true)
  | it :: rest =>
      match filter_item filter it with
      | None => (it :: rest, false)
      | Some it' =>
          let (rest', ok) := filter_loop filter rest in (it' :: rest', ok)
      end
  end.

(** Lines 449-461: keyup in [#searchInput] with the value [value]. *)
Definition keyup (value : string) (items : list GalleryItem) : list GalleryItem * bool :=
  filter_loop (toLowerCase value) items.

End Filter.

(** Lines 441-446: the click handler of [#showAllBtn] added last. *)
Definition show_all_click (items : list GalleryItem) : list GalleryItem :=
  (fun it => mkGalleryItem (data_name it) "block") <$> items.

End Search.

(** ** More example pages *)

(** The three-photo page after [openAt(0)]: one display update pending. *)
Definition opened_page : State :=
  step (ApiOpenAt 0) (with_lightbox three_photos).

(** The one-photo page after [openAt(0)], when the gallery has lost its
    item and has been scanned again: the update is still pending. *)
Definition emptied_page : State :=
  run [ApiOpenAt 0; GalleryMutated []; GalleryObserved] (with_lightbox one_photo).

(** A navbar with three links, the menu closed. *)
Definition three_links : Navbar.Nav :=
  Navbar.mkNav false false None [true; false; false].

(** Two named gallery items around one without a name. *)
Definition named_and_unnamed : list Search.GalleryItem :=
  [Search.mkGalleryItem (Some "Sea") "";
   Search.mkGalleryItem None "";
   Search.mkGalleryItem (Some "Sky") ""].

(** [keeps f m]: running [m] does not change the value of [f], whether
    [m] completes or throws. *)
Definition keeps {A B : Type} (f : State -> B) (m : M A) : Prop :=
  forall s, f (exec m s) = f s.

(** * Properties *)

(** ** Arithmetic of the index expressions *)

Section IndexArithmetic.
Variable n : Z.
Hypothesis n_pos : 0 < n.

(** [((i % n) + n) % n] on JavaScript's truncating [%] is the
    mathematical [i mod n], for every integer [i]. *)
Lemma wrap_index (i : Z) : Z.rem (Z.rem i n + n) n = i mod n.
Proof using n_pos.
  pose proof (Z.rem_bound_abs i n ltac:(lia)) as Hb.
  rewrite Z.rem_mod_nonneg by lia.
  rewrite (Z.rem_eq i n) by lia.
  replace (i - n * (i ÷ n) + n) with (i + (1 - (i ÷ n)) * n) by lia.
  apply Z.mod_add; lia.
Qed.

Lemma wrap_index_range (i : Z) : 0 <= Z.rem (Z.rem i n + n) n < n.
Proof using n_pos. rewrite wrap_index. apply Z.mod_pos_bound; lia. Qed.

(** [(c + 1) % n] for a current index that is not negative. *)
Lemma forward_index (c : Z) : 0 <= c -> Z.rem (c + 1) n = (c + 1) mod n.
Proof using n_pos. intros Hc. apply Z.rem_mod_nonneg; lia. Qed.

(** [(c - 1 + n) % n] for a current index that is not negative. *)
Lemma backward_index (c : Z) : 0 <= c -> Z.rem (c - 1 + n) n = (c - 1) mod n.
Proof using n_pos.
  intros Hc. rewrite Z.rem_mod_nonneg by lia.
  replace (c - 1 + n) with (c - 1 + 1 * n) by lia.
  apply Z.mod_add; lia.
Qed.

(** [(idx + offset + n) % n] for the offsets [-1] and [1]. *)
Lemma neighbour_index (idx offset : Z) :
  0 <= idx -> -1 <= offset ->
  js_rem (idx + offset + n) n = Num ((idx + offset) mod n).
Proof using n_pos.
  intros Hi Ho. unfold js_rem. destruct (decide (n = 0)) as [?|_]; [lia|].
  f_equal. rewrite Z.rem_mod_nonneg by lia.
  replace (idx + offset + n) with (idx + offset + 1 * n) by lia.
  apply Z.mod_add; lia.
Qed.

End IndexArithmetic.

(** An index in range reads an entry. *)
Lemma js_index_in_range {A : Type} (arr : list A) (z : Z) :
  0 <= z < Z.of_nat (length arr) ->
  exists a, arr !! Z.to_nat z = Some a /\ js_index arr (Num z) = Some a.
Proof.
  intros Hz. destruct (lookup_lt_is_Some_2 arr (Z.to_nat z)) as [a Ha]; [lia|].
  exists a. split; [done|]. unfold js_index.
  destruct (decide (z < 0)); [lia | done].
Qed.

Lemma images_length_pos (s : State) : images s <> [] -> 0 < images_length s.
Proof.
  unfold images_length. destruct (images s); [done | simpl; lia].
Qed.

(** ** Which parts of the state a statement leaves alone *)

Section Keeps.
Context {B : Type} (f : State -> B).

Lemma keeps_ret {A : Type} (a : A) : keeps f (ret a).
Proof. done. Qed.

Lemma keeps_throw {A : Type} : keeps f (@throw A).
Proof. done. Qed.

Lemma keeps_get : keeps f get.
Proof. done. Qed.

Lemma keeps_modify (g : State -> State) :
  (forall s, f (g s) = f s) -> keeps f (modify g).
Proof. intros Hg s. apply Hg. Qed.

Lemma keeps_bind {A C : Type} (m : M A) (k : A -> M C) :
  keeps f m -> (forall a, keeps f (k a)) -> keeps f (bind m k).
Proof.
  intros Hm Hk s. unfold exec, bind. specialize (Hm s). unfold exec in Hm.
  destruct (m s) as [s' [a|]]; simpl in *; [|done].
  rewrite <- Hm. apply Hk.
Qed.

Lemma keeps_try_catch (m : M unit) : keeps f m -> keeps f (try_catch m).
Proof. intros Hm s. apply Hm. Qed.

Lemma keeps_forEach_from {A : Type} (g : A -> nat -> M unit) (arr : list A) (i : nat) :
  (forall x j, keeps f (g x j)) -> keeps f (forEach_from g arr i).
Proof.
  intros Hg. revert i. induction arr as [|x rest IH]; intros i; simpl.
  - apply keeps_ret.
  - apply keeps_bind; [apply Hg | intros _; apply IH].
Qed.

End Keeps.

(** Decomposes a statement along its structure. *)
Ltac keeps_step :=
  match goal with
  | |- keeps _ (bind _ _) => apply keeps_bind; [|intros ?]
  | |- keeps _ (ret _) => apply keeps_ret
  | |- keeps _ throw => apply keeps_throw
  | |- keeps _ get => apply keeps_get
  | |- keeps _ (modify _) => apply keeps_modify; intros ?; try reflexivity
  | |- keeps _ (try_catch _) => apply keeps_try_catch
  | |- keeps _ (forEach _ _) => apply keeps_forEach_from; intros ? ?
  | |- keeps _ (forEach_from _ _ _) => apply keeps_forEach_from; intros ? ?
  | |- keeps _ (let _ := _ in _) => cbv zeta
  | |- keeps _ (match ?x with _ => _ end) => destruct x
  | |- keeps _ (if ?x then _ else _) => destruct x
  end.

Ltac keeps_tac := repeat keeps_step.

(** ** What each function does *)

Lemma update_run (s : State) :
  update s =
  (if decide (images_length s = 0) then s
   else match lbImage s with
        | None => s
        | Some im =>
            set_timers (timers s ++ [js_index (images s) (Num (current s))])
              (set_lbImage
                 (Some (mkLbImage (img_src im) (img_alt_text im) "0" "opacity 140ms")) s)
        end, Some tt).
Proof.
  unfold update, bind, get; simpl.
  destruct (decide (images_length s = 0)); [done|].
  destruct (lbImage s) as [im|] eqn:Him; [|done].
  unfold write_lbImage, bind, get, modify; simpl. rewrite Him; simpl. done.
Qed.

Lemma update_completes (s : State) : snd (update s) = Some tt.
Proof. now rewrite update_run. Qed.

(** On a list that is not empty, and for an index that is not negative,
    [preloadNeighbors] completes and starts two fetches: first of the
    entry before [idx], then of the entry after it, both cyclically. *)
Lemma preloadNeighbors_run (s : State) (idx : Z) :
  images s <> [] -> 0 <= idx ->
  exists e1 e2,
    images s !! Z.to_nat ((idx - 1) mod images_length s) = Some e1 /\
    images s !! Z.to_nat ((idx + 1) mod images_length s) = Some e2 /\
    preloadNeighbors idx s = (set_fetches (fetches s ++ [large e1; large e2]) s, Some tt).
Proof.
  intros Hne Hidx. pose proof (images_length_pos s Hne) as Hn.
  destruct (js_index_in_range (images s) ((idx - 1) mod images_length s)) as (e1 & H1 & J1).
  { apply Z.mod_pos_bound. exact Hn. }
  destruct (js_index_in_range (images s) ((idx + 1) mod images_length s)) as (e2 & H2 & J2).
  { apply Z.mod_pos_bound. exact Hn. }
  exists e1, e2. split; [exact H1|]. split; [exact H2|].
  unfold preloadNeighbors, forEach; simpl.
  unfold bind at 1. unfold bind at 1. unfold get at 1.
  rewrite (neighbour_index _ Hn idx (-1)) by lia.
  replace (idx + -1) with (idx - 1) by lia. rewrite J1.
  unfold modify at 1. unfold bind at 1. unfold bind at 1. unfold get at 1.
  change (images_length (set_fetches (fetches s ++ [large e1]) s)) with (images_length s).
  change (images (set_fetches (fetches s ++ [large e1]) s)) with (images s).
  rewrite (neighbour_index _ Hn idx 1) by lia. rewrite J2.
  unfold modify, ret; simpl. unfold set_fetches; simpl.
  now rewrite <- app_assoc.
Qed.

(** Without an entry, [preloadNeighbors] throws at the first offset and
    starts no fetch. *)
Lemma preloadNeighbors_empty (s : State) (idx : Z) :
  images s = [] -> preloadNeighbors idx s = (s, None).
Proof.
  intros He. unfold preloadNeighbors, forEach; simpl.
  unfold bind, get, js_rem, images_length. rewrite He; simpl. done.
Qed.

Lemma next_run (s : State) :
  next s =
  (if decide (images_length s = 0) then (s, Some tt)
   else update (set_current (Z.rem (current s + 1) (images_length s)) s)).
Proof.
  unfold next, bind, get; simpl. now destruct (decide (images_length s = 0)).
Qed.

Lemma prev_run (s : State) :
  prev s =
  (if decide (images_length s = 0) then (s, Some tt)
   else update (set_current (Z.rem (current s - 1 + images_length s) (images_length s)) s)).
Proof.
  unfold prev, bind, get; simpl. now destruct (decide (images_length s = 0)).
Qed.

Lemma closeLB_run (s : State) :
  closeLB s =
  (match lb s with
   | None => s
   | Some _ => set_isOpen false (set_bodyOverflow "" (set_lb (Some "true") s))
   end, Some tt).
Proof. unfold closeLB, bind, get; simpl. now destruct (lb s). Qed.

(** [openAt] with entries and a lightbox: the new index, the display
    update, then the page and the flag, then the focus, whose failure is
    caught. *)
Lemma openAt_run (s : State) (index : Z) (a : string) :
  images s <> [] -> lb s = Some a ->
  openAt index s =
  (exec (try_catch focus_stage)
     (set_isOpen true
        (set_lb (Some "false")
           (set_bodyOverflow "hidden"
              (exec update
                 (set_current
                    (Z.rem (Z.rem index (images_length s) + images_length s)
                           (images_length s)) s))))), Some tt).
Proof.
  intros Hne Hlb. pose proof (images_length_pos s Hne) as Hn.
  unfold openAt. unfold bind at 1, get at 1.
  destruct (decide (images_length s = 0)); [lia|]. rewrite Hlb.
  unfold bind at 1, modify at 1. unfold bind at 1.
  set (s1 := set_current _ s). unfold exec at 2.
  pose proof (update_completes s1) as Hu.
  destruct (update s1) as [s2 r]; simpl in Hu; subst r; simpl.
  unfold bind, modify, try_catch, exec; simpl. done.
Qed.

Lemma openAt_no_lightbox (s : State) (index : Z) :
  lb s = None -> openAt index s = (s, Some tt).
Proof.
  intros Hlb. unfold openAt, bind, get; simpl.
  destruct (decide (images_length s = 0)); [done|]. now rewrite Hlb.
Qed.

Lemma openAt_no_images (s : State) (index : Z) :
  images s = [] -> openAt index s = (s, Some tt).
Proof.
  intros He. unfold openAt, bind, get, images_length; simpl. now rewrite He.
Qed.

(** ** Frames: what each function can write *)

Section Frames.
Context {B : Type} (f : State -> B).

Lemma update_frame :
  (forall v s, f (set_lbImage v s) = f s) ->
  (forall v s, f (set_timers v s) = f s) ->
  keeps f update.
Proof.
  intros H1 H2. unfold update, write_lbImage. keeps_tac; auto.
Qed.

Lemma preloadNeighbors_frame (idx : Z) :
  (forall v s, f (set_fetches v s) = f s) ->
  keeps f (preloadNeighbors idx).
Proof.
  intros H1. unfold preloadNeighbors. keeps_tac; auto.
Qed.

Lemma update_callback_frame (it : option Entry) :
  (forall v s, f (set_lbImage v s) = f s) ->
  (forall v s, f (set_lbCaption v s) = f s) ->
  (forall v s, f (set_fetches v s) = f s) ->
  keeps f (update_callback it).
Proof.
  intros H1 H2 H3. unfold update_callback, write_lbImage.
  destruct it; [|apply keeps_throw].
  keeps_tac; auto.
  - destruct (lbCaption _); auto.
  - now apply preloadNeighbors_frame.
Qed.

Lemma closeLB_frame :
  (forall v s, f (set_lb v s) = f s) ->
  (forall v s, f (set_bodyOverflow v s) = f s) ->
  (forall v s, f (set_isOpen v s) = f s) ->
  keeps f closeLB.
Proof.
  intros H1 H2 H3. unfold closeLB. keeps_tac; auto.
Qed.

Lemma next_frame :
  (forall v s, f (set_current v s) = f s) ->
  (forall v s, f (set_lbImage v s) = f s) ->
  (forall v s, f (set_timers v s) = f s) ->
  keeps f next.
Proof.
  intros H1 H2 H3. unfold next.
  apply keeps_bind; [apply keeps_get | intros s0].
  destruct (decide _); [apply keeps_ret|].
  apply keeps_bind; [apply keeps_modify; auto | intros _; now apply update_frame].
Qed.

Lemma prev_frame :
  (forall v s, f (set_current v s) = f s) ->
  (forall v s, f (set_lbImage v s) = f s) ->
  (forall v s, f (set_timers v s) = f s) ->
  keeps f prev.
Proof.
  intros H1 H2 H3. unfold prev.
  apply keeps_bind; [apply keeps_get | intros s0].
  destruct (decide _); [apply keeps_ret|].
  apply keeps_bind; [apply keeps_modify; auto | intros _; now apply update_frame].
Qed.

Lemma openAt_frame (index : Z) :
  (forall v s, f (set_current v s) = f s) ->
  (forall v s, f (set_lbImage v s) = f s) ->
  (forall v s, f (set_timers v s) = f s) ->
  (forall v s, f (set_bodyOverflow v s) = f s) ->
  (forall v s, f (set_lb v s) = f s) ->
  (forall v s, f (set_isOpen v s) = f s) ->
  (forall v s, f (set_focusCalls v s) = f s) ->
  keeps f (openAt index).
Proof.
  intros H1 H2 H3 H4 H5 H6 H7. unfold openAt, focus_stage.
  apply keeps_bind; [apply keeps_get | intros s0].
  destruct (decide _); [apply keeps_ret|].
  destruct (lb s0); [|apply keeps_ret].
  apply keeps_bind; [apply keeps_modify; auto | intros _].
  apply keeps_bind; [now apply update_frame | intros _].
  keeps_tac; auto.
Qed.

Lemma scanGallery_frame :
  (forall v s, f (set_figures v s) = f s) ->
  (forall v s, f (set_images v s) = f s) ->
  (forall v s, f (set_elems v s) = f s) ->
  keeps f scanGallery.
Proof.
  intros H1 H2 H3.
  unfold scanGallery, scan_item, bind_item, addEventListener, set_bound.
  keeps_tac; auto.
Qed.

Lemma refreshGallery_frame :
  (forall v s, f (set_figures v s) = f s) ->
  (forall v s, f (set_images v s) = f s) ->
  (forall v s, f (set_elems v s) = f s) ->
  keeps f refreshGallery.
Proof.
  intros H1 H2 H3. unfold refreshGallery.
  apply keeps_bind; [apply keeps_get | intros s0].
  apply keeps_bind; [|intros _; now apply scanGallery_frame].
  unfold set_bound. keeps_tac; auto.
Qed.

End Frames.

(** ** The scan *)

Lemma bind_run {A C : Type} (m : M A) (k : A -> M C) (s s' : State) (a : A) :
  m s = (s', Some a) -> bind m k s = k a s'.
Proof. intros H. unfold bind. now rewrite H. Qed.

(** The first loop appends [scanned nodes i] to [images] and the items'
    identities to [figures], and completes. *)
Lemma scan_loop_run (nodes : list Item) (i : nat) (s : State) :
  forEach_from scan_item nodes i s =
  (set_images (images s ++ scanned nodes i)
     (set_figures (figures s ++ map el (scanned nodes i)) s), Some tt).
Proof.
  revert i s. induction nodes as [|fig rest IH]; intros i s; simpl.
  - unfold ret. rewrite !app_nil_r. now destruct s.
  - unfold scan_item. destruct (item_img fig) as [img|] eqn:Himg.
    + erewrite bind_run; [|reflexivity]. rewrite IH. simpl.
      unfold set_images, set_figures; simpl.
      now rewrite <- !app_assoc.
    + erewrite bind_run; [|reflexivity]. now rewrite IH.
Qed.

Lemma bind_item_keeps_images (fig i : nat) : keeps images (bind_item fig i).
Proof. unfold bind_item, addEventListener, set_bound. keeps_tac. Qed.

(** After a scan, [images] is what the first loop builds from the items
    in the container. *)
Lemma scanGallery_images (s : State) (nodes : list Item) :
  galleryContainer s = Some nodes ->
  images (exec scanGallery s) = scanned nodes 0.
Proof.
  intros Hg. unfold exec, scanGallery.
  erewrite bind_run; [|reflexivity]. erewrite bind_run; [|reflexivity].
  erewrite bind_run; [|reflexivity]. simpl. rewrite Hg.
  erewrite bind_run; [|apply scan_loop_run].
  erewrite bind_run; [|reflexivity].
  pose proof (keeps_forEach_from images bind_item) as Hk. unfold keeps, exec in Hk.
  unfold forEach. rewrite Hk; [reflexivity|]. intros; apply bind_item_keeps_images.
Qed.

Lemma scanGallery_no_container (s : State) :
  galleryContainer s = None -> images (exec scanGallery s) = [].
Proof.
  intros Hg. unfold exec, scanGallery.
  erewrite bind_run; [|reflexivity]. erewrite bind_run; [|reflexivity].
  erewrite bind_run; [|reflexivity]. simpl. now rewrite Hg.
Qed.

(** The entry of item [j] is in [images] at the number of earlier items
    that have an image, and carries the loop index [i + j]. *)
Lemma scanned_lookup (nodes : list Item) (i j : nat) (fig : Item) (img : Img) :
  nodes !! j = Some fig -> item_img fig = Some img ->
  scanned nodes i !! entries_before nodes j = Some (entry_of fig img (i + j)).
Proof.
  unfold entries_before. revert i j.
  induction nodes as [|x rest IH]; intros i j Hj Himg; [done|].
  destruct j as [|j]; simpl in *.
  - injection Hj as ->. rewrite Himg. simpl. now rewrite Nat.add_0_r.
  - rewrite filter_cons.
    replace (i + S j)%nat with (S i + j)%nat by lia.
    destruct (item_img x) as [y|] eqn:Hx.
    + rewrite decide_True; [simpl; now apply IH|].
      unfold has_img. apply bool_decide_eq_true. rewrite Hx. eauto.
    + rewrite decide_False; [now apply IH|].
      unfold has_img. rewrite bool_decide_eq_true, Hx. intros [? ?]; discriminate.
Qed.

(** When every earlier item has an image, that place is [j] itself. *)
Lemma entries_before_all (nodes : list Item) (j : nat) :
  (j <= length nodes)%nat ->
  (forall k fig, (k < j)%nat -> nodes !! k = Some fig -> is_Some (item_img fig)) ->
  entries_before nodes j = j.
Proof.
  unfold entries_before. revert j.
  induction nodes as [|x rest IH]; intros j Hlen Hall.
  - simpl in Hlen. now replace j with 0%nat by lia.
  - destruct j as [|j]; [done|]. simpl. rewrite filter_cons.
    rewrite decide_True.
    + simpl. f_equal. apply IH; [simpl in Hlen; lia|].
      intros k fig Hk Hf. apply (Hall (S k) fig); [lia | done].
    + apply bool_decide_eq_true. apply (Hall 0%nat x); [lia | done].
Qed.

(** ** The current index *)

Lemma focus_stage_keeps_current : keeps current (try_catch focus_stage).
Proof. unfold focus_stage. keeps_tac. Qed.

Lemma update_keeps_current : keeps current update.
Proof. now apply update_frame. Qed.

Lemma update_keeps_images : keeps images update.
Proof. now apply update_frame. Qed.

Lemma openAt_current (s : State) (index : Z) (a : string) :
  images s <> [] -> lb s = Some a ->
  current (exec (openAt index) s) =
  Z.rem (Z.rem index (images_length s) + images_length s) (images_length s).
Proof.
  intros Hne Hlb. unfold exec at 1. rewrite (openAt_run s index a Hne Hlb); simpl.
  rewrite focus_stage_keeps_current; simpl. now rewrite update_keeps_current.
Qed.

Lemma openAt_keeps_images (index : Z) : keeps images (openAt index).
Proof. now apply openAt_frame. Qed.

Lemma next_current (s : State) :
  images s <> [] ->
  current (exec next s) = Z.rem (current s + 1) (images_length s).
Proof.
  intros Hne. pose proof (images_length_pos s Hne) as Hn.
  unfold exec. rewrite next_run. destruct (decide (images_length s = 0)); [lia|].
  apply update_keeps_current.
Qed.

Lemma prev_current (s : State) :
  images s <> [] ->
  current (exec prev s) = Z.rem (current s - 1 + images_length s) (images_length s).
Proof.
  intros Hne. pose proof (images_length_pos s Hne) as Hn.
  unfold exec. rewrite prev_run. destruct (decide (images_length s = 0)); [lia|].
  apply update_keeps_current.
Qed.

Lemma next_keeps_images : keeps images next.
Proof. now apply next_frame. Qed.

Lemma prev_keeps_images : keeps images prev.
Proof. now apply prev_frame. Qed.

Lemma images_length_keeps {A : Type} (m : M A) (s : State) :
  keeps images m -> images_length (exec m s) = images_length s.
Proof. intros H. unfold images_length. now rewrite H. Qed.

(** After [openAt] (with a lightbox), [next] and [prev] on a list that
    is not empty, the index is in range. *)
Lemma openAt_in_range (s : State) (index : Z) :
  images s <> [] -> is_Some (lb s) ->
  0 <= current (exec (openAt index) s) < images_length (exec (openAt index) s).
Proof.
  intros Hne [a Hlb]. rewrite (images_length_keeps _ _ (openAt_keeps_images index)).
  rewrite (openAt_current s index a Hne Hlb).
  apply wrap_index_range. now apply images_length_pos.
Qed.

Lemma next_in_range (s : State) :
  images s <> [] -> 0 <= current s ->
  0 <= current (exec next s) < images_length (exec next s).
Proof.
  intros Hne Hc. pose proof (images_length_pos s Hne) as Hn.
  rewrite (images_length_keeps _ _ next_keeps_images), (next_current s Hne).
  rewrite forward_index by lia. apply Z.mod_pos_bound; lia.
Qed.

Lemma prev_in_range (s : State) :
  images s <> [] -> 0 <= current s ->
  0 <= current (exec prev s) < images_length (exec prev s).
Proof.
  intros Hne Hc. pose proof (images_length_pos s Hne) as Hn.
  rewrite (images_length_keeps _ _ prev_keeps_images), (prev_current s Hne).
  rewrite backward_index by lia. apply Z.mod_pos_bound; lia.
Qed.

(** No function makes the index negative. *)
Lemma openAt_nonneg (s : State) (index : Z) :
  0 <= current s -> 0 <= current (exec (openAt index) s).
Proof.
  intros Hc. destruct (images s) as [|e l] eqn:Him.
  - unfold exec. now rewrite openAt_no_images.
  - destruct (lb s) as [a|] eqn:Hlb.
    + apply openAt_in_range; [congruence | eauto].
    + unfold exec. now rewrite openAt_no_lightbox.
Qed.

Lemma next_nonneg (s : State) : 0 <= current s -> 0 <= current (exec next s).
Proof.
  intros Hc. destruct (images s) as [|e l] eqn:Him.
  - unfold exec. rewrite next_run. unfold images_length. now rewrite Him.
  - apply next_in_range; [congruence | done].
Qed.

Lemma prev_nonneg (s : State) : 0 <= current s -> 0 <= current (exec prev s).
Proof.
  intros Hc. destruct (images s) as [|e l] eqn:Him.
  - unfold exec. rewrite prev_run. unfold images_length. now rewrite Him.
  - apply prev_in_range; [congruence | done].
Qed.

Lemma closeLB_keeps_current : keeps current closeLB.
Proof. now apply closeLB_frame. Qed.

Lemma call_listeners_nonneg (h : Listener -> M unit) (ls : list Listener) (s : State) :
  (forall l st, 0 <= current st -> 0 <= current (exec (h l) st)) ->
  0 <= current s -> 0 <= current (call_listeners h ls s).
Proof.
  intros Hh. revert s. induction ls as [|l rest IH]; intros s Hc; simpl; [done|].
  apply IH. now apply Hh.
Qed.

Lemma on_click_nonneg (l : Listener) (s : State) :
  0 <= current s -> 0 <= current (exec (on_click l) s).
Proof. destruct l; simpl; [apply openAt_nonneg | done]. Qed.

Lemma on_keydown_nonneg (key : string) (l : Listener) (s : State) :
  0 <= current s -> 0 <= current (exec (on_keydown key l) s).
Proof.
  destruct l; simpl; [done|].
  destruct (_ || _); [apply openAt_nonneg | done].
Qed.

Lemma document_keydown_nonneg (key : string) (s : State) :
  0 <= current s -> 0 <= current (exec (document_keydown key) s).
Proof.
  intros Hc. unfold exec, document_keydown, bind, get; simpl.
  destruct (negb (isOpen s)); [done|].
  destruct (bool_decide (key = "Escape")).
  { fold (exec closeLB s). now rewrite closeLB_keeps_current. }
  destruct (bool_decide (key = "ArrowRight")); [now apply next_nonneg|].
  destruct (bool_decide (key = "ArrowLeft")); [now apply prev_nonneg | done].
Qed.

Lemma pointerup_nonneg (s : State) :
  0 <= current s -> 0 <= current (exec pointerup s).
Proof.
  intros Hc. unfold exec, pointerup. unfold bind at 1, get at 1.
  destruct (negb (active (pointerSwipe s))); [done|].
  assert (forall m : M unit,
            0 <= current (exec m s) ->
            0 <= current (fst ((m ;; modify (fun s' => set_pointerSwipe
                 (mkSwipe false (startX (pointerSwipe s')) (dist (pointerSwipe s'))) s') ;;
               modify (fun s' => set_pointerSwipe
                 (mkSwipe (active (pointerSwipe s')) (startX (pointerSwipe s')) 0) s')) s)))
    as Hrest.
  { intros m Hm. unfold exec in Hm. unfold bind.
    destruct (m s) as [s1 [[]|]]; simpl in *; done. }
  apply Hrest.
  destruct (decide (dist (pointerSwipe s) > 40)); [now apply prev_nonneg|].
  destruct (decide (dist (pointerSwipe s) < -40)); [now apply next_nonneg | done].
Qed.

Lemma step_nonneg (ev : Event) (s : State) :
  0 <= current s -> 0 <= current (step ev s).
Proof.
  intros Hc. destruct ev; simpl.
  - now apply openAt_nonneg.
  - now rewrite closeLB_keeps_current.
  - now apply next_nonneg.
  - now apply prev_nonneg.
  - rewrite refreshGallery_frame; done.
  - apply call_listeners_nonneg; [apply on_click_nonneg | done].
  - apply document_keydown_nonneg.
    apply call_listeners_nonneg; [apply on_keydown_nonneg | done].
  - now apply document_keydown_nonneg.
  - now apply next_nonneg.
  - now apply prev_nonneg.
  - now rewrite closeLB_keeps_current.
  - now rewrite closeLB_keeps_current.
  - done.
  - now destruct (active (pointerSwipe s)).
  - now apply pointerup_nonneg.
  - done.
  - destruct (timers s) as [|it rest]; [done|].
    rewrite update_callback_frame; done.
  - rewrite preloadNeighbors_frame; done.
  - now destruct (galleryContainer s).
  - rewrite refreshGallery_frame; done.
Qed.

Lemma reachable_nonneg (s : State) : reachable s -> 0 <= current s.
Proof.
  induction 1 as [g l i c st o | ev s Hr IH].
  - unfold loaded. rewrite scanGallery_frame; done.
  - now apply step_nonneg.
Qed.

Lemma reachable_run (evs : list Event) (s : State) :
  reachable s -> reachable (run evs s).
Proof.
  revert s. induction evs as [|ev rest IH]; intros s Hs; [done|].
  simpl. apply IH. now constructor.
Qed.

(** ** The scheduled display update *)

(** The callback of [update], run on a state with entries and with the
    image element: it writes the captured entry to the image and the
    caption, shows the image, and preloads around the index that is
    current when it runs. *)
Lemma update_callback_run (st : State) (e : Entry) (im : LbImage) :
  lbImage st = Some im -> images st <> [] -> 0 <= current st ->
  exists e1 e2,
    images st !! Z.to_nat ((current st - 1) mod images_length st) = Some e1 /\
    images st !! Z.to_nat ((current st + 1) mod images_length st) = Some e2 /\
    update_callback (Some e) st =
    (set_fetches (fetches st ++ [large e1; large e2])
       (set_lbImage (Some (mkLbImage (large e) (alt e) "1" (transition im)))
          (match lbCaption st with
           | Some _ => set_lbCaption (Some (alt e)) st
           | None => st
           end)), Some tt).
Proof.
  intros Him Hne Hc.
  set (st' := set_lbImage (Some (mkLbImage (large e) (alt e) "1" (transition im)))
                (match lbCaption st with
                 | Some _ => set_lbCaption (Some (alt e)) st
                 | None => st
                 end)).
  assert (images st' = images st) as Hi by (subst st'; now destruct (lbCaption st)).
  assert (current st' = current st) as Hcur by (subst st'; now destruct (lbCaption st)).
  assert (fetches st' = fetches st) as Hf by (subst st'; now destruct (lbCaption st)).
  destruct (preloadNeighbors_run st' (current st)) as (e1 & e2 & H1 & H2 & Hp);
    [congruence | done |].
  unfold images_length in *. rewrite Hi in H1, H2. rewrite Hf in Hp.
  exists e1, e2. split; [exact H1|]. split; [exact H2|].
  rewrite <- Hp. unfold update_callback.
  assert (forall g (s1 : State) (i1 : LbImage), lbImage s1 = Some i1 ->
            write_lbImage g s1 = (set_lbImage (Some (g i1)) s1, Some tt)) as Hw.
  { intros g s1 i1 H. unfold write_lbImage, bind, get, modify; simpl. now rewrite H. }
  erewrite bind_run; [|eapply Hw; exact Him].
  erewrite bind_run; [|eapply Hw; reflexivity].
  erewrite bind_run; [|reflexivity].
  erewrite bind_run; [|eapply Hw; simpl; destruct (lbCaption st); reflexivity].
  erewrite bind_run; [|reflexivity].
  clear Hp Hi Hcur Hf. subst st'. destruct st; simpl in *.
  now destruct lbCaption0.
Qed.

Lemma focus_stage_frame {B : Type} (f : State -> B) :
  (forall v s, f (set_focusCalls v s) = f s) ->
  keeps f (try_catch focus_stage).
Proof. intros H. unfold focus_stage. keeps_tac; auto. Qed.



Lemma openAt_isOpen (s : State) (index : Z) (a : string) :
  images s <> [] -> lb s = Some a -> isOpen (exec (openAt index) s) = true.
Proof.
  intros Hne Hlb. unfold exec at 1. rewrite (openAt_run s index a Hne Hlb); simpl.
  now rewrite focus_stage_frame.
Qed.


Lemma update_timers (s : State) (im : LbImage) :
  images s <> [] -> lbImage s = Some im ->
  timers (exec update s) = timers s ++ [js_index (images s) (Num (current s))].
Proof.
  intros Hne Him. pose proof (images_length_pos s Hne) as Hn.
  unfold exec. rewrite update_run. destruct (decide _); [lia|]. now rewrite Him.
Qed.

(** ** The scan completes *)

Lemma bind_item_completes (fig i : nat) (s : State) :
  snd (bind_item fig i s) = Some tt.
Proof.
  unfold bind_item, bind, get; simpl. now destruct (bound (props s fig)).
Qed.

Lemma bind_loop_completes (figs : list nat) (i : nat) (s : State) :
  snd (forEach_from bind_item figs i s) = Some tt.
Proof.
  revert i s. induction figs as [|fig rest IH]; intros i s; simpl; [done|].
  unfold bind. pose proof (bind_item_completes fig i s) as H.
  destruct (bind_item fig i s) as [s1 r]; simpl in H; subst r. apply IH.
Qed.

Lemma scanGallery_completes (s : State) : completes scanGallery s = true.
Proof.
  unfold completes, scanGallery.
  erewrite bind_run; [|reflexivity]. erewrite bind_run; [|reflexivity].
  erewrite bind_run; [|reflexivity]. simpl.
  destruct (galleryContainer s) as [nodes|]; [|done].
  erewrite bind_run; [|apply scan_loop_run].
  erewrite bind_run; [|reflexivity].
  unfold forEach. now rewrite bind_loop_completes.
Qed.

Lemma entries_before_le (nodes : list Item) (i : nat) :
  (entries_before nodes i <= i)%nat.
Proof.
  unfold entries_before.
  etrans; [apply length_filter|]. rewrite length_take. lia.
Qed.

(** The entry that a scan makes of item [i], when the item has an
    image. *)
Lemma scanGallery_entry (s : State) (nodes : list Item) (i : nat)
    (fig : Item) (img : Img) :
  galleryContainer s = Some nodes -> nodes !! i = Some fig ->
  item_img fig = Some img ->
  images (exec scanGallery s) !! entries_before nodes i = Some (entry_of fig img i).
Proof.
  intros Hg Hi Himg. rewrite (scanGallery_images s nodes Hg).
  now apply (scanned_lookup nodes 0 i fig img).
Qed.

(** ** Handlers and the [_bound] flag *)

(** Reading an element's properties after a write to one element. *)
Lemma props_insert (s : State) (m : gmap nat ElemProps) (e g : nat) (p : ElemProps) :
  props (set_elems (<[e := p]> m) s) g
  = if decide (g = e) then p else default fresh_elem (m !! g).
Proof.
  unfold props; simpl. destruct (decide (g = e)) as [->|Hne].
  - now rewrite lookup_insert_eq.
  - now rewrite lookup_insert_ne.
Qed.

(** The second loop's callback binds an element that is not flagged and
    leaves a flagged one alone. *)
Lemma bind_item_props (fig i : nat) (s : State) (g : nat) :
  props (exec (bind_item fig i) s) g =
  if decide (g = fig)
  then (if bound (props s fig) then props s fig
        else mkElemProps true (listeners (props s fig) ++ [OnClick i; OnKeydown i]))
  else props s g.
Proof.
  unfold exec, bind_item, bind, get; simpl.
  destruct (bound (props s fig)) eqn:Hb; simpl.
  - now destruct (decide (g = fig)) as [->|].
  - unfold addEventListener, set_bound, modify; simpl.
    repeat (rewrite props_insert; simpl).
    rewrite !(decide_True (P := fig = fig)) by done; simpl.
    destruct (decide (g = fig)) as [->|Hne].
    + now rewrite <- app_assoc.
    + unfold props. now rewrite !lookup_insert_ne.
Qed.

(** The second loop over distinct elements: the element at position [p]
    gets the two listeners for the index [i0 + p], unless it is flagged. *)
Lemma bind_loop_props (figs : list nat) (i0 : nat) (s : State) :
  NoDup figs ->
  (forall p f, figs !! p = Some f ->
     props (exec (forEach_from bind_item figs i0) s) f =
     if bound (props s f) then props s f
     else mkElemProps true (listeners (props s f) ++ [OnClick (i0 + p); OnKeydown (i0 + p)])) /\
  (forall g, g ∉ figs -> props (exec (forEach_from bind_item figs i0) s) g = props s g).
Proof.
  revert i0 s. induction figs as [|f rest IH]; intros i0 s Hnd.
  - split; [intros p f Hp; done | done].
  - apply NoDup_cons in Hnd as [Hnotin Hnd].
    assert (exec (forEach_from bind_item (f :: rest) i0) s
            = exec (forEach_from bind_item rest (S i0)) (exec (bind_item f i0) s)) as Hstep.
    { unfold exec; simpl. unfold bind at 1.
      pose proof (bind_item_completes f i0 s) as Hc.
      destruct (bind_item f i0 s) as [s1 r]; simpl in *. now subst r. }
    destruct (IH (S i0) (exec (bind_item f i0) s) Hnd) as [IH1 IH2].
    split.
    + intros p g Hp. rewrite Hstep. destruct p as [|p]; simpl in Hp.
      * injection Hp as ->. rewrite IH2 by done. rewrite bind_item_props.
        rewrite decide_True by done. now rewrite Nat.add_0_r.
      * rewrite (IH1 p g Hp). rewrite bind_item_props.
        assert (g <> f) as Hne.
        { intros ->. apply Hnotin. eapply list_elem_of_lookup_2. exact Hp. }
        rewrite decide_False by done.
        now replace (S i0 + p)%nat with (i0 + S p)%nat by lia.
    + intros g Hg. rewrite Hstep. apply not_elem_of_cons in Hg as [Hgf Hgr].
      rewrite IH2 by done. rewrite bind_item_props. now rewrite decide_False.
Qed.

(** The loop of [refreshGallery] removes the flag of every figure and
    keeps the listeners. *)
Lemma clear_loop_props (figs : list nat) (i0 : nat) (s : State) (g : nat) :
  props (exec (forEach_from (fun f _ => try_catch (set_bound f false)) figs i0) s) g
  = if decide (g ∈ figs) then mkElemProps false (listeners (props s g)) else props s g.
Proof.
  revert i0 s. induction figs as [|f rest IH]; intros i0 s.
  - unfold exec; simpl. destruct (decide (g ∈ [])) as [Hin|]; [|done]. now apply elem_of_nil in Hin.
  - unfold exec; simpl. unfold bind at 1, try_catch at 1; simpl.
    fold (exec (forEach_from (fun f _ => try_catch (set_bound f false)) rest (S i0))
               (set_elems (<[f:=mkElemProps false (listeners (props s f))]> (elems s)) s)).
    rewrite IH. rewrite !props_insert.
    destruct (decide (g = f)) as [->|Hne].
    + rewrite (decide_True (P := f ∈ f :: rest)) by (apply elem_of_cons; now left).
      simpl. now destruct (decide (f ∈ rest)).
    + destruct (decide (g ∈ rest)) as [Hin|Hnin].
      * rewrite decide_True by (apply elem_of_cons; now right). done.
      * rewrite decide_False; [done|]. now apply not_elem_of_cons.
Qed.

Lemma clear_loop_completes (figs : list nat) (i0 : nat) (s : State) :
  snd (forEach_from (fun f _ => try_catch (set_bound f false)) figs i0 s) = Some tt.
Proof.
  revert i0 s. induction figs as [|f rest IH]; intros i0 s; simpl; [done|].
  unfold bind at 1, try_catch at 1; simpl. apply IH.
Qed.

Lemma scanned_el_subset (nodes : list Item) (i : nat) (x : nat) :
  x ∈ el <$> scanned nodes i -> x ∈ item_id <$> nodes.
Proof.
  revert i. induction nodes as [|fig rest IH]; intros i; simpl; [done|].
  destruct (item_img fig); simpl; rewrite ?elem_of_cons; intros H.
  - destruct H as [->|H]; [now left | right; eauto].
  - right; eauto.
Qed.

Lemma scanned_el_NoDup (nodes : list Item) (i : nat) :
  NoDup (item_id <$> nodes) -> NoDup (el <$> scanned nodes i).
Proof.
  revert i. induction nodes as [|fig rest IH]; intros i; simpl; [constructor|].
  rewrite NoDup_cons. intros [Hnin Hnd].
  destruct (item_img fig); simpl; [|now apply IH].
  apply NoDup_cons. split; [|now apply IH].
  intros Hin. apply Hnin. eapply scanned_el_subset. exact Hin.
Qed.

Lemma scanGallery_run (s : State) (nodes : list Item) :
  galleryContainer s = Some nodes ->
  exec scanGallery s =
  exec (forEach_from bind_item (el <$> scanned nodes 0) 0)
       (set_images (scanned nodes 0) (set_figures (el <$> scanned nodes 0) s)).
Proof.
  intros Hg. unfold exec at 1, scanGallery.
  erewrite bind_run; [|reflexivity]. erewrite bind_run; [|reflexivity].
  erewrite bind_run; [|reflexivity]. simpl. rewrite Hg.
  erewrite bind_run; [|apply scan_loop_run].
  erewrite bind_run; [|reflexivity]. simpl. reflexivity.
Qed.

(** A refresh adds a click listener and a key listener to every item
    that was a figure before and still has an image: the listeners of
    the earlier scans stay. *)
Lemma refreshGallery_adds_listeners (s : State) (nodes : list Item) (i : nat)
    (fig : Item) (img : Img) :
  galleryContainer s = Some nodes -> NoDup (item_id <$> nodes) ->
  nodes !! i = Some fig -> item_img fig = Some img ->
  item_id fig ∈ figures s ->
  props (exec refreshGallery s) (item_id fig) =
  mkElemProps true
    (listeners (props s (item_id fig)) ++
     [OnClick (entries_before nodes i); OnKeydown (entries_before nodes i)]).
Proof.
  intros Hg Hnd Hi Himg Hin.
  set (clear := forEach (fun f (_ : nat) => try_catch (set_bound f false)) (figures s)).
  assert (exec refreshGallery s = exec scanGallery (exec clear s)) as ->.
  { unfold exec at 1, refreshGallery. unfold bind at 1, get at 1.
    destruct (decide (length (figures s) = 0%nat)) as [Hz|Hz].
    { apply length_zero_iff_nil in Hz. rewrite Hz in Hin. now apply elem_of_nil in Hin. }
    unfold bind. fold clear. pose proof (clear_loop_completes (figures s) 0 s) as Hc.
    unfold exec. fold (forEach (fun f (_ : nat) => try_catch (set_bound f false)) (figures s)) in Hc.
    fold clear in Hc. destruct (clear s) as [s1 r]; simpl in *. now subst r. }
  assert (galleryContainer (exec clear s) = Some nodes) as Hg1.
  { rewrite <- Hg. subst clear. unfold forEach. apply keeps_forEach_from.
    intros f j. unfold set_bound. keeps_tac. }
  assert (props (exec clear s) (item_id fig)
          = mkElemProps false (listeners (props s (item_id fig)))) as Hp1.
  { subst clear. unfold forEach. rewrite clear_loop_props. now rewrite decide_True. }
  rewrite (scanGallery_run _ nodes Hg1).
  destruct (bind_loop_props (el <$> scanned nodes 0) 0
              (set_images (scanned nodes 0)
                 (set_figures (el <$> scanned nodes 0) (exec clear s)))
              (scanned_el_NoDup nodes 0 Hnd)) as [Hb _].
  rewrite (Hb (entries_before nodes i) (item_id fig)).
  - change (props (set_images _ (set_figures _ ?x)) ?g) with (props x g).
    rewrite Hp1. simpl. reflexivity.
  - rewrite list_lookup_fmap. rewrite (scanned_lookup nodes 0 i fig img Hi Himg). done.
Qed.

(** * The claims *)




(** C2: when the entry list is empty, [openAt(i)], [next()] and [prev()]
    each complete without an exception and leave the whole state as it
    was, so [isOpen] and the current index are unchanged. *)
Theorem empty_list_is_noop (s : State) (i : Z) :
  images s = [] ->
  openAt i s = (s, Some tt) /\ next s = (s, Some tt) /\ prev s = (s, Some tt).
Proof.
  intros He. split; [now apply openAt_no_images|].
  rewrite next_run, prev_run. unfold images_length. rewrite He; simpl.
  split; reflexivity.
Qed.

(** C2, witness: a page whose gallery has no item. *)
Lemma empty_list_is_noop_witness :
  images (with_lightbox []) = [] /\
  openAt 5 (with_lightbox []) = (with_lightbox [], Some tt) /\
  next (with_lightbox []) = (with_lightbox [], Some tt) /\
  prev (with_lightbox []) = (with_lightbox [], Some tt).
Proof.
  split; [reflexivity|].
  apply (empty_list_is_noop (with_lightbox []) 5). reflexivity.
Defined.

(** C3, counterexample: three photos, the viewer opened at the last one,
    then the page drops two of them and the gallery is scanned again:
    the list has one entry and the current index is still 2. *)
Lemma refresh_leaves_index_out_of_range :
  reachable (run [ApiOpenAt 2; GalleryMutated one_photo; GalleryObserved]
                 (with_lightbox three_photos)) /\
  images (run [ApiOpenAt 2; GalleryMutated one_photo; GalleryObserved]
              (with_lightbox three_photos)) <> [] /\
  images_length (run [ApiOpenAt 2; GalleryMutated one_photo; GalleryObserved]
                     (with_lightbox three_photos)) = 1 /\
  current (run [ApiOpenAt 2; GalleryMutated one_photo; GalleryObserved]
               (with_lightbox three_photos)) = 2.
Proof.
  split; [apply reachable_run, reachable_loaded|].
  split; [discriminate|]. split; reflexivity.
Qed.

(** C3, as amended: in every state the page can reach the current index
    is not negative. [openAt] (on a page with the lightbox), [next] and
    [prev] on a list that is not empty leave it in [0, N). [close] and
    the re-scan leave the index as it is, and [close] leaves the list as
    it is; so the index can be at or past the end of a list that a
    re-scan made shorter, until the next [openAt], [next] or [prev]. *)
Theorem current_index_range (s : State) :
  reachable s ->
  0 <= current s /\
  (forall i, images s <> [] -> is_Some (lb s) ->
     0 <= current (step (ApiOpenAt i) s) < images_length (step (ApiOpenAt i) s)) /\
  (images s <> [] ->
     0 <= current (step ApiNext s) < images_length (step ApiNext s)) /\
  (images s <> [] ->
     0 <= current (step ApiPrev s) < images_length (step ApiPrev s)) /\
  (current (step ApiClose s) = current s /\ images (step ApiClose s) = images s) /\
  current (step ApiRefresh s) = current s.
Proof.
  intros Hr. pose proof (reachable_nonneg s Hr) as Hc.
  split; [exact Hc|].
  split; [intros i; apply openAt_in_range|].
  split; [intros Hne; now apply next_in_range|].
  split; [intros Hne; now apply prev_in_range|].
  split.
  - split; simpl; now apply closeLB_frame.
  - simpl. now apply refreshGallery_frame.
Qed.

(** C3, witness: the three-photo page after [openAt(2)] and [next()]. *)
Lemma current_index_range_witness :
  reachable (run [ApiOpenAt 2; ApiNext] (with_lightbox three_photos)) /\
  0 <= current (run [ApiOpenAt 2; ApiNext] (with_lightbox three_photos)).
Proof.
  assert (reachable (run [ApiOpenAt 2; ApiNext] (with_lightbox three_photos))) as Hr.
  { apply reachable_step, reachable_step, reachable_loaded. }
  split; [exact Hr|].
  exact (proj1 (current_index_range _ Hr)).
Defined.

(** C4, the defect at a concrete page: one gallery item. After the
    initial scan the item has one click and one key handler; after one
    refresh it has two of each, and a single click then runs [openAt]
    twice (two display updates are scheduled). *)
Theorem refresh_binds_handlers_again :
  listeners (props (with_lightbox one_photo) 1) = [OnClick 0; OnKeydown 0] /\
  listeners (props (step ApiRefresh (with_lightbox one_photo)) 1)
    = [OnClick 0; OnKeydown 0; OnClick 0; OnKeydown 0] /\
  length (timers (step (ClickFigure 1) (with_lightbox one_photo))) = 1%nat /\
  length (timers (step (ClickFigure 1) (step ApiRefresh (with_lightbox one_photo))))
    = 2%nat.
Proof. repeat split; vm_compute; reflexivity. Qed.

(** C5, counterexample: on a page whose gallery has no item the list is
    empty; [preloadNeighbors(current)], as the observer of the image's
    [src] calls it, throws and starts no fetch. *)
Lemma preloadNeighbors_empty_list_throws :
  images (with_lightbox []) = [] /\
  completes (preloadNeighbors (current (with_lightbox []))) (with_lightbox []) = false /\
  fetches (exec (preloadNeighbors (current (with_lightbox []))) (with_lightbox [])) = [] /\
  fetches (step ImageSrcObserved (with_lightbox [])) = [].
Proof. repeat split; reflexivity. Qed.

(** C5, as amended: for a list of N >= 1 entries and every index [idx]
    that is not negative (every valid index, and every value the current
    index can have), [preloadNeighbors(idx)] completes and starts exactly
    two fetches and changes nothing else: first of the entry at
    [(idx - 1) mod N], then of the entry at [(idx + 1) mod N]. For
    N <= 2 the two are the same entry, and for N = 1 it is the only
    entry, the one at index 0. *)
Theorem preloadNeighbors_two_fetches (s : State) (idx : Z) :
  images s <> [] -> 0 <= idx ->
  exists e1 e2,
    images s !! Z.to_nat ((idx - 1) mod images_length s) = Some e1 /\
    images s !! Z.to_nat ((idx + 1) mod images_length s) = Some e2 /\
    preloadNeighbors idx s = (set_fetches (fetches s ++ [large e1; large e2]) s, Some tt) /\
    length (fetches (exec (preloadNeighbors idx) s)) = (length (fetches s) + 2)%nat /\
    (images_length s <= 2 -> e1 = e2) /\
    (images_length s = 1 -> idx = 0 -> images s !! Z.to_nat idx = Some e1).
Proof.
  intros Hne Hidx. pose proof (images_length_pos s Hne) as Hn.
  destruct (preloadNeighbors_run s idx Hne Hidx) as (e1 & e2 & H1 & H2 & Hrun).
  exists e1, e2. split; [exact H1|]. split; [exact H2|]. split; [exact Hrun|].
  split. { unfold exec. rewrite Hrun; simpl. rewrite length_app; simpl. lia. }
  split.
  - intros Hle. assert ((idx - 1) mod images_length s = (idx + 1) mod images_length s) as E.
    { assert (images_length s = 1 \/ images_length s = 2) as [->| ->] by lia.
      - now rewrite !Z.mod_1_r.
      - replace (idx + 1) with (idx - 1 + 1 * 2) by lia. now rewrite Z.mod_add. }
    rewrite E in H1. congruence.
  - intros H1n ->. rewrite H1n in H1. exact H1.
Qed.

(** C5, witness: one entry, index 0: both fetches are of that entry. *)
Lemma preloadNeighbors_two_fetches_witness :
  images (with_lightbox one_photo) <> [] /\ 0 <= 0 /\
  fetches (exec (preloadNeighbors 0) (with_lightbox one_photo)) = ["A"; "A"].
Proof.
  assert (images (with_lightbox one_photo) <> []) as Hne by discriminate.
  split; [exact Hne|]. split; [lia|].
  destruct (preloadNeighbors_two_fetches (with_lightbox one_photo) 0 Hne ltac:(lia))
    as (e1 & e2 & H1 & H2 & Hrun & _).
  unfold exec. rewrite Hrun. simpl.
  injection H1 as <-. injection H2 as <-. reflexivity.
Defined.



(** C7, counterexample: an item without an image, then an item whose
    image has no [alt]. The scan makes one entry, at position 0, and its
    caption is "Image 2", not "Image 1". *)
Lemma caption_counts_items_without_image :
  text_then_photo = [mkItem 1 None; mkItem 2 (Some (mkImg "b.jpg" None None))] /\
  images (with_lightbox text_then_photo)
    = [mkEntry "b.jpg" "b.jpg" "Image 2" 2] /\
  "Image 2" <> "Image " +:+ pretty (0 + 1)%nat.
Proof. split; [reflexivity|]. split; [reflexivity | discriminate]. Qed.

(** C7, as amended: the scan completes, and for the item at position [i]
    among the [.gallery-item] elements of the container, if it has an
    image without alt text (no [alt] attribute, or an empty one), its
    entry has the caption "Image " followed by [i + 1]. Items without an
    image make no entry but are counted in [i]: the entry is at the
    position [p <= i] of the entry list that counts only the earlier
    items with an image, and [p = i] when every earlier item has one. *)
Theorem default_caption_counts_all_items (s : State) (nodes : list Item) (i : nat)
    (fig : Item) (img : Img) :
  galleryContainer s = Some nodes -> nodes !! i = Some fig ->
  item_img fig = Some img -> img_alt img = "" ->
  completes scanGallery s = true /\
  (exists e,
     images (exec scanGallery s) !! entries_before nodes i = Some e /\
     el e = item_id fig /\
     alt e = "Image " +:+ pretty (i + 1)%nat) /\
  (entries_before nodes i <= i)%nat /\
  ((forall k f, (k < i)%nat -> nodes !! k = Some f -> is_Some (item_img f)) ->
   entries_before nodes i = i).
Proof.
  intros Hg Hi Himg Halt. split; [apply scanGallery_completes|]. split.
  - exists (entry_of fig img i). split; [now apply scanGallery_entry|].
    split; [reflexivity|]. unfold entry_of; simpl. now rewrite Halt.
  - split; [apply entries_before_le|]. intros Hall.
    apply entries_before_all; [|exact Hall].
    apply Nat.lt_le_incl. eapply lookup_lt_Some. exact Hi.
Qed.

(** C7, witness: the second of the three photos, none with alt text. *)
Lemma default_caption_counts_all_items_witness :
  galleryContainer (with_lightbox three_photos) = Some three_photos /\
  three_photos !! 1%nat = Some (photo 2 "B") /\
  alt <$> images (exec scanGallery (with_lightbox three_photos)) !! 1%nat
    = Some "Image 2".
Proof.
  split; [reflexivity|]. split; [reflexivity|].
  destruct (default_caption_counts_all_items (with_lightbox three_photos) three_photos
              1 (photo 2 "B") (mkImg "B" None None)
              eq_refl eq_refl eq_refl eq_refl) as (_ & (e & He & _ & Ha) & _).
  change (entries_before three_photos 1) with 1%nat in He.
  rewrite He. simpl. now rewrite Ha.
Defined.

(** C8, counterexample: an image with the attribute [data-large=""] and
    the source thumb.jpg. The attribute is present, and the entry's full
    URL is the source, not the attribute's value. *)
Lemma empty_large_attribute_falls_back :
  empty_large = [mkItem 1 (Some (mkImg "thumb.jpg" (Some "") None))] /\
  large <$> images (with_lightbox empty_large) !! 0%nat = Some "thumb.jpg" /\
  "thumb.jpg" <> "".
Proof. split; [reflexivity|]. split; [reflexivity | discriminate]. Qed.

(** C8, as amended: for every item with an image, the entry's thumbnail
    URL is the image's source, and its full URL is the [data-large]
    attribute when that is present and not empty, and the thumbnail URL
    when the attribute is absent or empty. *)
Theorem full_url_rule (s : State) (nodes : list Item) (i : nat)
    (fig : Item) (img : Img) :
  galleryContainer s = Some nodes -> nodes !! i = Some fig ->
  item_img fig = Some img ->
  exists e,
    images (exec scanGallery s) !! entries_before nodes i = Some e /\
    el e = item_id fig /\
    thumb e = src img /\
    (forall v, data_large img = Some v -> v <> "" -> large e = v) /\
    (data_large img = None \/ data_large img = Some "" -> large e = thumb e).
Proof.
  intros Hg Hi Himg. exists (entry_of fig img i).
  split; [now apply scanGallery_entry|]. split; [reflexivity|].
  split; [reflexivity|]. unfold entry_of, js_or; simpl. split.
  - intros v -> Hv. now destruct (decide (v = "")).
  - now intros [-> | ->].
Qed.

(** C8, witness: source thumb.jpg and no [data-large]. *)
Lemma full_url_rule_witness :
  galleryContainer (with_lightbox no_large) = Some no_large /\
  no_large !! 0%nat = Some (mkItem 1 (Some (mkImg "thumb.jpg" None None))) /\
  large <$> images (exec scanGallery (with_lightbox no_large)) !! 0%nat
    = Some "thumb.jpg".
Proof.
  split; [reflexivity|]. split; [reflexivity|].
  destruct (full_url_rule (with_lightbox no_large) no_large 0
              (mkItem 1 (Some (mkImg "thumb.jpg" None None)))
              (mkImg "thumb.jpg" None None) eq_refl eq_refl eq_refl)
    as (e & He & _ & Ht & _ & Hl).
  change (entries_before no_large 0) with 0%nat in He.
  rewrite He. simpl. rewrite Hl by now left. now rewrite Ht.
Defined.

(** C9: [next()] and [prev()], called through the public API, leave
    [isOpen] as it is in every state, so a closed viewer stays closed.
    On a list that is not empty they still write the index,
    [(current + 1) % N] and [(current - 1 + N) % N], which in every
    state the page can reach are [(current + 1) mod N] and
    [(current - 1) mod N], and then run [update], which on a page with
    the image element schedules the display of the entry at the new
    index. *)
Theorem next_prev_keep_isOpen (s : State) :
  isOpen (step ApiNext s) = isOpen s /\
  isOpen (step ApiPrev s) = isOpen s /\
  (images s <> [] ->
   step ApiNext s
     = exec update (set_current (Z.rem (current s + 1) (images_length s)) s) /\
   step ApiPrev s
     = exec update
         (set_current (Z.rem (current s - 1 + images_length s) (images_length s)) s) /\
   current (step ApiNext s) = Z.rem (current s + 1) (images_length s) /\
   current (step ApiPrev s) = Z.rem (current s - 1 + images_length s) (images_length s) /\
   (reachable s ->
    current (step ApiNext s) = (current s + 1) mod images_length s /\
    current (step ApiPrev s) = (current s - 1) mod images_length s) /\
   (is_Some (lbImage s) ->
    timers (step ApiNext s)
      = timers s ++ [js_index (images s) (Num (current (step ApiNext s)))] /\
    timers (step ApiPrev s)
      = timers s ++ [js_index (images s) (Num (current (step ApiPrev s)))])).
Proof.
  split; [simpl; now apply next_frame|]. split; [simpl; now apply prev_frame|].
  intros Hne. pose proof (images_length_pos s Hne) as Hn.
  assert (step ApiNext s
          = exec update (set_current (Z.rem (current s + 1) (images_length s)) s)) as En.
  { simpl. unfold exec. rewrite next_run. destruct (decide _); [lia | done]. }
  assert (step ApiPrev s
          = exec update
              (set_current (Z.rem (current s - 1 + images_length s) (images_length s)) s))
    as Ep.
  { simpl. unfold exec. rewrite prev_run. destruct (decide _); [lia | done]. }
  split; [exact En|]. split; [exact Ep|].
  split; [now apply next_current|]. split; [now apply prev_current|]. split.
  - intros Hr. pose proof (reachable_nonneg s Hr) as Hc.
    simpl. rewrite (next_current s Hne), (prev_current s Hne).
    split; [now apply forward_index | now apply backward_index].
  - intros [im Him]. rewrite En, Ep.
    rewrite !update_keeps_current.
    split; now rewrite (update_timers _ im).
Qed.

(** C9, witness: the three-photo page, never opened: [next()] moves the
    index from 0 to 1 and the viewer is still closed. *)
Lemma next_prev_keep_isOpen_witness :
  images (with_lightbox three_photos) <> [] /\
  isOpen (with_lightbox three_photos) = false /\
  isOpen (step ApiNext (with_lightbox three_photos)) = false /\
  current (step ApiNext (with_lightbox three_photos)) = 1 /\
  current (step ApiPrev (with_lightbox three_photos)) = 2.
Proof.
  assert (images (with_lightbox three_photos) <> []) as Hne by discriminate.
  split; [exact Hne|]. split; [reflexivity|].
  destruct (next_prev_keep_isOpen (with_lightbox three_photos))
    as (Ho & _ & H).
  destruct (H Hne) as (_ & _ & Hn & Hp & _).
  split; [exact Ho|]. split; [exact Hn | exact Hp].
Defined.

(** C10: [close()] completes in every state and leaves the current
    index and the entry list as they are, and with them the entry that
    the index names; it also leaves the figures, the handlers, the
    gallery, the image and caption elements, the pending display
    updates and the fetches as they are. On a page without the lightbox
    element it changes nothing; otherwise it sets [isOpen] to false, the
    lightbox's [aria-hidden] to "true" and the body's [overflow] to the
    empty string. *)
Theorem close_keeps_index_and_entries (s : State) :
  completes closeLB s = true /\
  current (step ApiClose s) = current s /\
  images (step ApiClose s) = images s /\
  js_index (images (step ApiClose s)) (Num (current (step ApiClose s)))
    = js_index (images s) (Num (current s)) /\
  figures (step ApiClose s) = figures s /\
  elems (step ApiClose s) = elems s /\
  galleryContainer (step ApiClose s) = galleryContainer s /\
  lbImage (step ApiClose s) = lbImage s /\
  lbCaption (step ApiClose s) = lbCaption s /\
  timers (step ApiClose s) = timers s /\
  fetches (step ApiClose s) = fetches s /\
  match lb s with
  | None => step ApiClose s = s
  | Some _ =>
      isOpen (step ApiClose s) = false /\
      lb (step ApiClose s) = Some "true" /\
      bodyOverflow (step ApiClose s) = ""
  end.
Proof.
  simpl. unfold completes, exec. rewrite closeLB_run; simpl.
  destruct (lb s); repeat split; reflexivity.
Qed.

(** * Further properties *)

(** ** Every event, piece by piece *)

Lemma next_completes (s : State) : snd (next s) = Some tt.
Proof. rewrite next_run. destruct (decide _); [done | apply update_completes]. Qed.

Lemma prev_completes (s : State) : snd (prev s) = Some tt.
Proof. rewrite prev_run. destruct (decide _); [done | apply update_completes]. Qed.

Lemma swipe_navigation_completes (d : Z) (s : State) :
  snd (swipe_navigation d s) = Some tt.
Proof.
  unfold swipe_navigation. destruct (decide _); [apply prev_completes|].
  destruct (decide _); [apply next_completes | done].
Qed.

Lemma swipe_navigation_frame {B : Type} (f : State -> B) (d : Z) :
  (forall v s, f (set_current v s) = f s) ->
  (forall v s, f (set_lbImage v s) = f s) ->
  (forall v s, f (set_timers v s) = f s) ->
  keeps f (swipe_navigation d).
Proof.
  intros H1 H2 H3. unfold swipe_navigation.
  destruct (decide _); [now apply prev_frame|].
  destruct (decide _); [now apply next_frame | apply keeps_ret].
Qed.

(** [pointerup] on a drag: the navigation the distance asks for, then
    the drag is over and the distance is zero again. *)
Lemma pointerup_run (s : State) :
  exec pointerup s =
  if active (pointerSwipe s)
  then set_pointerSwipe (mkSwipe false (startX (pointerSwipe s)) 0)
         (exec (swipe_navigation (dist (pointerSwipe s))) s)
  else s.
Proof.
  unfold exec, pointerup. unfold bind at 1, get at 1.
  destruct (active (pointerSwipe s)); simpl; [|done].
  fold (swipe_navigation (dist (pointerSwipe s))).
  pose proof (swipe_navigation_completes (dist (pointerSwipe s)) s) as Hc.
  pose proof (swipe_navigation_frame pointerSwipe (dist (pointerSwipe s))
                ltac:(done) ltac:(done) ltac:(done) s) as Hk.
  unfold exec in Hk. unfold bind at 1.
  destruct (swipe_navigation (dist (pointerSwipe s)) s) as [s1 r]; simpl in *.
  subst r. unfold bind, modify; simpl. now rewrite Hk.
Qed.

Section StepPreserves.
Variable P : State -> Prop.
Hypothesis P_openAt : forall i s, P s -> P (exec (openAt i) s).
Hypothesis P_next : forall s, P s -> P (exec next s).
Hypothesis P_prev : forall s, P s -> P (exec prev s).
Hypothesis P_closeLB : forall s, P s -> P (exec closeLB s).
Hypothesis P_refreshGallery : forall s, P s -> P (exec refreshGallery s).
Hypothesis P_timer : forall it rest s,
  P s -> timers s = it :: rest -> P (exec (update_callback it) (set_timers rest s)).
Hypothesis P_preload : forall s, P s -> P (exec (preloadNeighbors (current s)) s).
Hypothesis P_gallery : forall nodes s, P s -> P (set_galleryContainer (Some nodes) s).
Hypothesis P_swipe : forall v s,
  P s -> (active v = false -> dist v = 0) -> P (set_pointerSwipe v s).

Lemma call_listeners_preserves (h : Listener -> M unit) (ls : list Listener) (s : State) :
  (forall l st, P st -> P (exec (h l) st)) -> P s -> P (call_listeners h ls s).
Proof using Type.
  intros Hh. revert s. induction ls as [|l rest IH]; intros s Hs; simpl; [done|].
  apply IH. now apply Hh.
Qed.

Lemma document_keydown_preserves (key : string) (s : State) :
  P s -> P (exec (document_keydown key) s).
Proof using P_closeLB P_next P_prev.
  intros Hs. unfold exec, document_keydown, bind, get; simpl.
  destruct (negb (isOpen s)); [done|].
  destruct (bool_decide (key = "Escape")); [now apply P_closeLB|].
  destruct (bool_decide (key = "ArrowRight")); [now apply P_next|].
  destruct (bool_decide (key = "ArrowLeft")); [now apply P_prev | done].
Qed.

(** A property that each function and each change of the page keeps is
    kept by every event. *)
Lemma step_preserves (ev : Event) (s : State) : P s -> P (step ev s).
Proof using All.
  intros Hs. destruct ev; simpl.
  - now apply P_openAt.
  - now apply P_closeLB.
  - now apply P_next.
  - now apply P_prev.
  - now apply P_refreshGallery.
  - apply call_listeners_preserves; [|done].
    intros [i|i] st Hst; simpl; [now apply P_openAt | done].
  - apply document_keydown_preserves. apply call_listeners_preserves; [|done].
    intros [i|i] st Hst; simpl; [done|].
    destruct (_ || _); [now apply P_openAt | done].
  - now apply document_keydown_preserves.
  - now apply P_next.
  - now apply P_prev.
  - now apply P_closeLB.
  - now apply P_closeLB.
  - now apply P_swipe.
  - destruct (active (pointerSwipe s)); [|done]. now apply P_swipe.
  - rewrite pointerup_run. destruct (active (pointerSwipe s)); [|done].
    apply P_swipe; [|done]. unfold swipe_navigation.
    destruct (decide _); [now apply P_prev|].
    destruct (decide _); [now apply P_next | done].
  - now apply P_swipe.
  - destruct (timers s) as [|it rest] eqn:Ht; [done|]. now apply P_timer.
  - now apply P_preload.
  - destruct (galleryContainer s); [|done]. now apply P_gallery.
  - now apply P_refreshGallery.
Qed.

Lemma reachable_preserves (s : State) :
  (forall g l i c st o, P (loaded g l i c st o)) -> reachable s -> P s.
Proof using All.
  intros H0. induction 1; [apply H0 | now apply step_preserves].
Qed.

End StepPreserves.

(** ** The re-scan, in two parts *)

(** [refreshGallery] is the scan run after the loop that removes the
    flags; on an empty [figures] that loop does nothing. *)
Lemma refreshGallery_run (s : State) :
  exec refreshGallery s =
  exec scanGallery
    (exec (forEach_from (fun f (_ : nat) => try_catch (set_bound f false)) (figures s) 0) s).
Proof.
  unfold exec at 1, refreshGallery. unfold bind at 1, get at 1.
  destruct (decide (length (figures s) = 0%nat)) as [Hz|Hz].
  - apply length_zero_iff_nil in Hz. rewrite Hz. reflexivity.
  - unfold bind, forEach.
    pose proof (clear_loop_completes (figures s) 0 s) as Hc. unfold exec.
    destruct (forEach_from _ (figures s) 0 s) as [s1 r]; simpl in *. now subst r.
Qed.

Lemma clear_loop_frame {B : Type} (f : State -> B) (figs : list nat) (i : nat) :
  (forall v s, f (set_elems v s) = f s) ->
  keeps f (forEach_from (fun g (_ : nat) => try_catch (set_bound g false)) figs i).
Proof. intros H. unfold set_bound. keeps_tac; auto. Qed.

Lemma bind_loop_frame {B : Type} (f : State -> B) (figs : list nat) (i : nat) :
  (forall v s, f (set_elems v s) = f s) ->
  keeps f (forEach_from bind_item figs i).
Proof. intros H. unfold bind_item, addEventListener, set_bound. keeps_tac; auto. Qed.

(** After a scan [figures] and [images] are what the first loop made. *)
Lemma scanGallery_lists (s : State) :
  figures (exec scanGallery s) = el <$> images (exec scanGallery s) /\
  images (exec scanGallery s)
    = match galleryContainer s with
      | Some nodes => scanned nodes 0
      | None => []
      end.
Proof.
  destruct (galleryContainer s) as [nodes|] eqn:Hg.
  - rewrite (scanGallery_run s nodes Hg).
    rewrite !bind_loop_frame by done. done.
  - unfold exec, scanGallery.
    erewrite bind_run; [|reflexivity]. erewrite bind_run; [|reflexivity].
    erewrite bind_run; [|reflexivity]. simpl. now rewrite Hg.
Qed.

Lemma refreshGallery_lists (s : State) :
  figures (exec refreshGallery s) = el <$> images (exec refreshGallery s) /\
  images (exec refreshGallery s)
    = match galleryContainer s with
      | Some nodes => scanned nodes 0
      | None => []
      end.
Proof.
  rewrite refreshGallery_run.
  destruct (scanGallery_lists
    (exec (forEach_from (fun f (_ : nat) => try_catch (set_bound f false)) (figures s) 0) s))
    as [H1 H2].
  split; [exact H1|]. rewrite H2. now rewrite clear_loop_frame.
Qed.

(** [scanned], without the numbering: one entry for each item with an
    image, in the order of the items. *)
Lemma scanned_elements (nodes : list Item) (i : nat) :
  el <$> scanned nodes i = item_id <$> filter (fun fig => has_img fig = true) nodes.
Proof.
  revert i. induction nodes as [|fig rest IH]; intros i; [done|].
  simpl. rewrite filter_cons.
  destruct (item_img fig) as [img|] eqn:Himg; simpl.
  - rewrite decide_True; [simpl; now rewrite IH|].
    unfold has_img. rewrite Himg. apply bool_decide_eq_true. eauto.
  - rewrite decide_False; [apply IH|].
    unfold has_img. rewrite Himg, bool_decide_eq_true. intros [? ?]; discriminate.
Qed.

(** ** Invariants of the reachable states *)

(** The figures are the elements of the entries, in the same order. *)
Lemma reachable_parallel (s : State) :
  reachable s -> figures s = el <$> images s.
Proof.
  apply (reachable_preserves (fun s => figures s = el <$> images s)).
  - intros i st. rewrite openAt_frame, (openAt_keeps_images i st); done.
  - intros st. rewrite next_frame, (next_keeps_images st); done.
  - intros st. rewrite prev_frame, (prev_keeps_images st); done.
  - intros st. rewrite !closeLB_frame; done.
  - intros st _. apply refreshGallery_lists.
  - intros it rest st. rewrite !update_callback_frame; done.
  - intros st. rewrite !preloadNeighbors_frame; done.
  - done.
  - done.
  - intros g l i c st o. apply scanGallery_lists.
Qed.

(** ** Pending display updates *)

Lemma pending_ok_ext (s s' : State) :
  timers s' = timers s -> (is_Some (lbImage s) -> is_Some (lbImage s')) ->
  pending_ok s -> pending_ok s'.
Proof. intros Ht Hi [H1 H2]. unfold pending_ok. rewrite Ht. split; auto. Qed.

Lemma update_pending (s : State) :
  0 <= current s < images_length s -> pending_ok s -> pending_ok (exec update s).
Proof.
  intros Hc Hs. pose proof Hs as [H1 H2]. unfold exec. rewrite update_run.
  destruct (decide (images_length s = 0)); [lia|].
  destruct (lbImage s) as [im|] eqn:Him; [|exact Hs].
  destruct (js_index_in_range (images s) (current s) Hc) as (e & _ & ->).
  split; simpl; [|eauto].
  apply Forall_app. split; [done|]. apply Forall_singleton. eauto.
Qed.

Lemma openAt_pending (i : Z) (s : State) :
  pending_ok s -> pending_ok (exec (openAt i) s).
Proof.
  intros Hs. destruct (images s) as [|e0 l] eqn:Him.
  { unfold exec. now rewrite openAt_no_images. }
  destruct (lb s) as [a|] eqn:Hlb.
  2:{ unfold exec. now rewrite openAt_no_lightbox. }
  assert (images s <> []) as Hne by congruence.
  pose proof (images_length_pos s Hne) as Hn.
  unfold exec at 1. rewrite (openAt_run s i a Hne Hlb); simpl.
  set (s1 := set_current _ s).
  apply (pending_ok_ext (exec update s1)).
  - now rewrite focus_stage_frame.
  - now rewrite focus_stage_frame.
  - apply update_pending.
    + subst s1; simpl. now apply wrap_index_range.
    + now apply (pending_ok_ext s).
Qed.

Lemma next_pending (s : State) :
  0 <= current s -> pending_ok s -> pending_ok (exec next s).
Proof.
  intros Hc Hs. unfold exec. rewrite next_run.
  destruct (decide (images_length s = 0)) as [|Hn]; [done|].
  assert (0 < images_length s) as Hp by (unfold images_length in *; lia).
  apply update_pending; [|now apply (pending_ok_ext s)].
  simpl. rewrite (forward_index _ Hp) by done.
  change (images_length (set_current _ s)) with (images_length s).
  now apply Z.mod_pos_bound.
Qed.

Lemma prev_pending (s : State) :
  0 <= current s -> pending_ok s -> pending_ok (exec prev s).
Proof.
  intros Hc Hs. unfold exec. rewrite prev_run.
  destruct (decide (images_length s = 0)) as [|Hn]; [done|].
  assert (0 < images_length s) as Hp by (unfold images_length in *; lia).
  apply update_pending; [|now apply (pending_ok_ext s)].
  simpl. rewrite (backward_index _ Hp) by done.
  change (images_length (set_current _ s)) with (images_length s).
  now apply Z.mod_pos_bound.
Qed.

(** The callback of [update] on a page with the image element: the
    three writes to the image and the one to the caption, then the
    preload around the index current at that time. *)
Lemma update_callback_writes (st : State) (e : Entry) (im : LbImage) :
  lbImage st = Some im ->
  update_callback (Some e) st =
  preloadNeighbors (current st)
    (set_lbImage (Some (mkLbImage (large e) (alt e) "1" (transition im)))
       (match lbCaption st with
        | Some _ => set_lbCaption (Some (alt e)) st
        | None => st
        end)).
Proof.
  intros Him. unfold update_callback.
  assert (forall g (s1 : State) (i1 : LbImage), lbImage s1 = Some i1 ->
            write_lbImage g s1 = (set_lbImage (Some (g i1)) s1, Some tt)) as Hw.
  { intros g s1 i1 H. unfold write_lbImage, bind, get, modify; simpl. now rewrite H. }
  erewrite bind_run; [|eapply Hw; exact Him].
  erewrite bind_run; [|eapply Hw; reflexivity].
  erewrite bind_run; [|reflexivity].
  erewrite bind_run; [|eapply Hw; simpl; destruct (lbCaption st); reflexivity].
  erewrite bind_run; [|reflexivity].
  destruct st as [g m l i cap stage ov fc figs ims c o sw ts fs]; simpl in *.
  now destruct cap.
Qed.

Lemma update_callback_no_image (st : State) (it : option Entry) :
  lbImage st = None -> update_callback it st = (st, None).
Proof.
  intros Him. destruct it as [e|]; [|done].
  unfold update_callback, write_lbImage. unfold bind at 1 2, get at 1; simpl.
  now rewrite Him.
Qed.

Lemma update_callback_keeps_image (it : option Entry) (s : State) :
  is_Some (lbImage s) -> is_Some (lbImage (exec (update_callback it) s)).
Proof.
  intros [im Him]. destruct it as [e|]; [|unfold exec; simpl; rewrite Him; eauto].
  unfold exec. rewrite (update_callback_writes s e im Him).
  fold (exec (preloadNeighbors (current s))
             (set_lbImage (Some (mkLbImage (large e) (alt e) "1" (transition im)))
                (match lbCaption s with
                 | Some _ => set_lbCaption (Some (alt e)) s
                 | None => s
                 end))).
  rewrite preloadNeighbors_frame by done. simpl. eauto.
Qed.

Lemma reachable_pending (s : State) : reachable s -> pending_ok s.
Proof.
  intros Hr.
  cut (0 <= current s /\ pending_ok s); [tauto|]. revert Hr.
  apply (reachable_preserves (fun s => 0 <= current s /\ pending_ok s)).
  - intros i s1 [Hc Hs]. split; [now apply openAt_nonneg | now apply openAt_pending].
  - intros s1 [Hc Hs]. split; [now apply next_nonneg | now apply next_pending].
  - intros s1 [Hc Hs]. split; [now apply prev_nonneg | now apply prev_pending].
  - intros s1 [Hc Hs]. split; [now rewrite closeLB_keeps_current|].
    apply (pending_ok_ext s1); [| |done]; now rewrite closeLB_frame.
  - intros s1 [Hc Hs]. split; [now rewrite refreshGallery_frame|].
    apply (pending_ok_ext s1); [| |done]; now rewrite refreshGallery_frame.
  - intros it rest s1 [Hc [H1 H2]] Ht. split; [now rewrite update_callback_frame|].
    rewrite Ht in H1, H2. apply Forall_cons in H1 as [_ H1].
    split.
    + now rewrite update_callback_frame.
    + intros _. apply update_callback_keeps_image. simpl. now apply H2.
  - intros s1 [Hc Hs]. split; [now rewrite preloadNeighbors_frame|].
    apply (pending_ok_ext s1); [| |done]; now rewrite preloadNeighbors_frame.
  - done.
  - done.
  - intros g l i c st o. unfold loaded. split.
    + now rewrite scanGallery_frame.
    + unfold pending_ok. rewrite scanGallery_frame by done. simpl. split; [constructor | done].
Qed.

(** ** The open flag and the lightbox element *)

Lemma openAt_lb (s : State) (i : Z) (a : string) :
  images s <> [] -> lb s = Some a -> lb (exec (openAt i) s) = Some "false".
Proof.
  intros Hne Hlb. unfold exec at 1. rewrite (openAt_run s i a Hne Hlb); simpl.
  now rewrite focus_stage_frame.
Qed.

Lemma reachable_open (s : State) : reachable s -> open_ok s.
Proof.
  apply (reachable_preserves open_ok); unfold open_ok.
  - intros i s1 Hs. destruct (images s1) as [|e0 l] eqn:Him.
    { unfold exec. now rewrite openAt_no_images. }
    destruct (lb s1) as [a|] eqn:Hlb.
    2:{ unfold exec. rewrite openAt_no_lightbox by done. simpl. now rewrite Hlb. }
    intros _. apply (openAt_lb s1 i a); congruence.
  - intros s1. rewrite !next_frame; done.
  - intros s1. rewrite !prev_frame; done.
  - intros s1 Hs. unfold exec. rewrite closeLB_run; simpl.
    destruct (lb s1) eqn:Hlb; simpl; [done | rewrite Hlb; exact Hs].
  - intros s1. rewrite !refreshGallery_frame; done.
  - intros it rest s1. rewrite !update_callback_frame; done.
  - intros s1. rewrite !preloadNeighbors_frame; done.
  - done.
  - done.
  - intros g l i c st o. unfold loaded. now rewrite scanGallery_frame.
Qed.

(** ** The drag *)

Lemma reachable_swipe (s : State) : reachable s -> swipe_ok s.
Proof.
  apply (reachable_preserves swipe_ok); unfold swipe_ok.
  - intros i s1. rewrite openAt_frame; done.
  - intros s1. rewrite next_frame; done.
  - intros s1. rewrite prev_frame; done.
  - intros s1. rewrite closeLB_frame; done.
  - intros s1. rewrite refreshGallery_frame; done.
  - intros it rest s1. rewrite update_callback_frame; done.
  - intros s1. rewrite preloadNeighbors_frame; done.
  - done.
  - done.
  - intros g l i c st o. unfold loaded. now rewrite scanGallery_frame.
Qed.

(** X1: in every state the page can reach, the oldest pending display
    update holds a real entry and the page has the image element; when
    it fires while the entry list is not empty, it completes, writes
    that entry's URL and caption, shows the image, and fetches the
    entries before and after the index that is current at that time. *)
Theorem pending_update_shows_its_entry (s : State) (it : option Entry)
    (rest : list (option Entry)) :
  reachable s -> timers s = it :: rest -> images s <> [] ->
  exists e im e1 e2,
    it = Some e /\ lbImage s = Some im /\
    images s !! Z.to_nat ((current s - 1) mod images_length s) = Some e1 /\
    images s !! Z.to_nat ((current s + 1) mod images_length s) = Some e2 /\
    completes (update_callback it) (set_timers rest s) = true /\
    step TimerFires s =
      set_fetches (fetches s ++ [large e1; large e2])
                  (show_entry e im (set_timers rest s)).
Proof.
  intros Hr Ht Hne. destruct (reachable_pending s Hr) as [H1 H2].
  pose proof (reachable_nonneg s Hr) as Hc.
  rewrite Ht in H1. apply Forall_cons in H1 as [[e ->] _].
  destruct H2 as [im Him]; [now rewrite Ht|].
  destruct (update_callback_run (set_timers rest s) e im Him Hne Hc)
    as (e1 & e2 & L1 & L2 & Hrun).
  exists e, im, e1, e2. split; [done|]. split; [done|].
  split; [exact L1|]. split; [exact L2|].
  unfold completes, step, exec. rewrite Ht, Hrun. done.
Qed.

(** X2: when the entry list is empty at the time a pending display
    update fires (a re-scan found no image in between), the callback
    still writes the entry it captured to the image and the caption,
    and then throws in the preload: no fetch is started. *)
Theorem pending_update_on_emptied_list (s : State) (it : option Entry)
    (rest : list (option Entry)) :
  reachable s -> timers s = it :: rest -> images s = [] ->
  exists e im,
    it = Some e /\ lbImage s = Some im /\
    completes (update_callback it) (set_timers rest s) = false /\
    step TimerFires s = show_entry e im (set_timers rest s).
Proof.
  intros Hr Ht He. destruct (reachable_pending s Hr) as [H1 H2].
  rewrite Ht in H1. apply Forall_cons in H1 as [[e ->] _].
  destruct H2 as [im Him]; [now rewrite Ht|].
  exists e, im. split; [done|]. split; [done|].
  pose proof (update_callback_writes (set_timers rest s) e im Him) as Hw.
  rewrite preloadNeighbors_empty in Hw.
  2:{ unfold show_entry. simpl. now destruct (lbCaption s). }
  unfold completes, step, exec. rewrite Ht, Hw. done.
Qed.

(** X3: the keyboard. While the viewer is closed no key pressed in the
    document changes anything, and on a gallery item only Enter and
    Space do. While it is open, ArrowRight is [next], ArrowLeft is
    [prev], Escape is [close] and does close (the lightbox element is
    there whenever the viewer is open), and every other key changes
    nothing. *)
Theorem keyboard_router (s : State) (key : string) :
  reachable s ->
  (isOpen s = false -> step (Keydown key) s = s) /\
  (isOpen s = false -> key <> "Enter" -> key <> " " ->
   forall e, step (KeydownFigure e key) s = s) /\
  (isOpen s = true -> key <> "Escape" -> key <> "ArrowRight" -> key <> "ArrowLeft" ->
   step (Keydown key) s = s) /\
  (isOpen s = true ->
   step (Keydown "ArrowRight") s = step ApiNext s /\
   step (Keydown "ArrowLeft") s = step ApiPrev s /\
   step (Keydown "Escape") s = step ApiClose s /\
   isOpen (step (Keydown "Escape") s) = false /\
   lb (step (Keydown "Escape") s) = Some "true" /\
   current (step (Keydown "Escape") s) = current s).
Proof.
  intros Hr. split; [|split; [|split]].
  - intros Ho. simpl. unfold exec, document_keydown, bind, get; simpl. now rewrite Ho.
  - intros Ho HE HS e. simpl.
    assert (forall ls st, call_listeners (on_keydown key) ls st = st) as Hcl.
    { induction ls as [|l ls IH]; intros st; [done|]. simpl. rewrite <- (IH st) at 2.
      f_equal. destruct l; simpl; [done|].
      rewrite !bool_decide_eq_false_2 by done. done. }
    rewrite Hcl. unfold exec, document_keydown, bind, get; simpl. now rewrite Ho.
  - intros Ho H1 H2 H3. simpl. unfold exec, document_keydown, bind, get; simpl.
    rewrite Ho; simpl. rewrite !bool_decide_eq_false_2 by done. done.
  - intros Ho. pose proof (reachable_open s Hr Ho) as Hlb.
    assert (forall k, exec (document_keydown k) s =
              exec (if bool_decide (k = "Escape") then closeLB
                    else if bool_decide (k = "ArrowRight") then next
                    else if bool_decide (k = "ArrowLeft") then prev else ret tt) s) as Hk.
    { intros k. unfold exec at 1, document_keydown, bind, get; simpl. now rewrite Ho. }
    simpl. rewrite !Hk. simpl.
    split; [done|]. split; [done|]. split; [done|].
    unfold exec. rewrite closeLB_run, Hlb. done.
Qed.

Lemma prev_swipe (v : Swipe) (s : State) :
  exec prev (set_pointerSwipe v s) = set_pointerSwipe v (exec prev s).
Proof.
  unfold exec. rewrite !prev_run.
  change (images_length (set_pointerSwipe v s)) with (images_length s).
  destruct (decide _); [done|]. rewrite !update_run. simpl.
  change (images_length (set_current _ (set_pointerSwipe v s))) with (images_length s).
  change (images_length (set_current _ s)) with (images_length s).
  destruct (decide _); [done|]. now destruct (lbImage s).
Qed.

Lemma next_swipe (v : Swipe) (s : State) :
  exec next (set_pointerSwipe v s) = set_pointerSwipe v (exec next s).
Proof.
  unfold exec. rewrite !next_run.
  change (images_length (set_pointerSwipe v s)) with (images_length s).
  destruct (decide _); [done|]. rewrite !update_run. simpl.
  change (images_length (set_current _ (set_pointerSwipe v s))) with (images_length s).
  change (images_length (set_current _ s)) with (images_length s).
  destruct (decide _); [done|]. now destruct (lbImage s).
Qed.

(** X4: a drag on the stage, outside another drag and with whole-pixel
    coordinates: pointer down at [x0], move to [x1], pointer up runs
    [prev] when [x1 - x0 > 40], [next] when [x1 - x0 < -40] and nothing
    otherwise, and ends the drag with distance 0; pointer down and up
    without a move never navigates. The viewer need not be open. *)
Theorem swipe_gesture (s : State) (x0 x1 : Z) :
  reachable s -> active (pointerSwipe s) = false ->
  run [PointerDown x0; PointerMove x1; PointerUp] s =
    set_pointerSwipe (mkSwipe false x0 0)
      (if decide (x1 - x0 > 40) then exec prev s
       else if decide (x1 - x0 < -40) then exec next s
       else s) /\
  run [PointerDown x0; PointerUp] s = set_pointerSwipe (mkSwipe false x0 0) s.
Proof.
  intros Hr Ha. pose proof (reachable_swipe s Hr Ha) as Hd. split.
  - simpl. rewrite pointerup_run. simpl. unfold swipe_navigation.
    destruct (decide (x1 - x0 > 40)); [now rewrite !prev_swipe|].
    destruct (decide (x1 - x0 < -40)); [now rewrite !next_swipe | done].
  - simpl. rewrite pointerup_run. simpl. rewrite Hd. unfold swipe_navigation.
    destruct (decide (0 > 40)); [lia|]. destruct (decide (0 < -40)); [lia | done].
Qed.

(** X5: [figures] and [images] stay parallel: in every reachable state
    the i-th figure is the element of the i-th entry. A refresh builds
    the list from the gallery alone: one entry for each item with an
    image, in the order of the items, with the image's source as
    thumbnail and a non-empty alt text as caption; without a gallery
    container the list is empty. *)
Theorem entries_follow_the_gallery (s : State) :
  reachable s ->
  figures s = el <$> images s /\
  figures (step ApiRefresh s) = el <$> images (step ApiRefresh s) /\
  match galleryContainer s with
  | None => images (step ApiRefresh s) = []
  | Some nodes =>
      el <$> images (step ApiRefresh s)
        = item_id <$> filter (fun fig => has_img fig = true) nodes /\
      (forall i fig img,
         nodes !! i = Some fig -> item_img fig = Some img ->
         exists e,
           images (step ApiRefresh s) !! entries_before nodes i = Some e /\
           el e = item_id fig /\ thumb e = src img /\
           (img_alt img <> "" -> alt e = img_alt img))
  end.
Proof.
  intros Hr. split; [now apply reachable_parallel|].
  destruct (refreshGallery_lists s) as [H1 H2]. split; [exact H1|].
  simpl. rewrite H2. destruct (galleryContainer s) as [nodes|]; [|done].
  split; [apply scanned_elements|].
  intros i fig img Hi Himg. exists (entry_of fig img i).
  split; [now apply (scanned_lookup nodes 0 i fig img)|].
  split; [done|]. split; [done|].
  intros Ha. unfold entry_of, js_or; simpl. now destruct (decide (img_alt img = "")).
Qed.

(** ** Listeners are only ever added *)

Lemma bind_loop_grows (figs : list nat) (i : nat) (s : State) (e : nat) :
  listeners (props s e)
    `prefix_of` listeners (props (exec (forEach_from bind_item figs i) s) e).
Proof.
  revert i s. induction figs as [|f rest IH]; intros i s; [done|].
  assert (exec (forEach_from bind_item (f :: rest) i) s
          = exec (forEach_from bind_item rest (S i)) (exec (bind_item f i) s)) as ->.
  { unfold exec; simpl. unfold bind at 1.
    pose proof (bind_item_completes f i s) as Hc.
    destruct (bind_item f i s) as [s1 r]; simpl in *. now subst r. }
  etrans; [|apply IH]. rewrite bind_item_props.
  destruct (decide (e = f)) as [->|]; [|done].
  destruct (bound (props s f)); [done|]. simpl. now apply prefix_app_r.
Qed.

Lemma scanGallery_grows (s : State) (e : nat) :
  listeners (props s e) `prefix_of` listeners (props (exec scanGallery s) e).
Proof.
  destruct (galleryContainer s) as [nodes|] eqn:Hg.
  - rewrite (scanGallery_run s nodes Hg).
    etrans; [|apply bind_loop_grows]. done.
  - unfold exec, scanGallery.
    erewrite bind_run; [|reflexivity]. erewrite bind_run; [|reflexivity].
    erewrite bind_run; [|reflexivity]. simpl. now rewrite Hg.
Qed.

Lemma refreshGallery_grows (s : State) (e : nat) :
  listeners (props s e) `prefix_of` listeners (props (exec refreshGallery s) e).
Proof.
  rewrite refreshGallery_run. etrans; [|apply scanGallery_grows].
  rewrite clear_loop_props. now destruct (decide _).
Qed.

(** X6: no event removes or reorders a listener of a gallery item: the
    listeners an element has are always a prefix of the ones it has
    after any further events. *)
Theorem listeners_are_never_removed (evs : list Event) (s : State) (e : nat) :
  listeners (props s e) `prefix_of` listeners (props (run evs s) e).
Proof.
  revert s. induction evs as [|ev rest IH]; intros s; [done|].
  simpl. etrans; [|apply IH].
  apply (step_preserves
           (fun st => listeners (props s e) `prefix_of` listeners (props st e)));
    try done.
  - intros i st. unfold props. now rewrite openAt_frame.
  - intros st. unfold props. now rewrite next_frame.
  - intros st. unfold props. now rewrite prev_frame.
  - intros st. unfold props. now rewrite closeLB_frame.
  - intros st Hst. etrans; [exact Hst | apply refreshGallery_grows].
  - intros it r st. unfold props. now rewrite update_callback_frame.
  - intros st. unfold props. now rewrite preloadNeighbors_frame.
Qed.

(** ** A gallery that is scanned again and again *)

Lemma scanGallery_figures (s : State) (nodes : list Item) :
  galleryContainer s = Some nodes ->
  figures (exec scanGallery s) = el <$> scanned nodes 0.
Proof.
  intros Hg. destruct (scanGallery_lists s) as [H1 H2]. now rewrite H1, H2, Hg.
Qed.

Lemma scanned_figure (nodes : list Item) (i : nat) (fig : Item) (img : Img) :
  nodes !! i = Some fig -> item_img fig = Some img ->
  (el <$> scanned nodes 0) !! entries_before nodes i = Some (item_id fig).
Proof.
  intros Hi Himg. rewrite list_lookup_fmap.
  now rewrite (scanned_lookup nodes 0 i fig img Hi Himg).
Qed.

(** The first scan of a page binds each item with an image once. *)
Lemma loaded_listeners (nodes : list Item) (i : nat) (fig : Item) (img : Img)
    (lightbox : option string) (image : option LbImage) (caption : option string)
    (stage : bool) (overflow : string) :
  NoDup (item_id <$> nodes) -> nodes !! i = Some fig -> item_img fig = Some img ->
  props (loaded (Some nodes) lightbox image caption stage overflow) (item_id fig)
  = mkElemProps true (bound_handlers (entries_before nodes i) 1).
Proof.
  intros Hnd Hi Himg. unfold loaded.
  rewrite (scanGallery_run (page (Some nodes) lightbox image caption stage overflow)
             nodes eq_refl).
  destruct (bind_loop_props (el <$> scanned nodes 0) 0
              (set_images (scanned nodes 0)
                 (set_figures (el <$> scanned nodes 0)
                    (page (Some nodes) lightbox image caption stage overflow)))
              (scanned_el_NoDup nodes 0 Hnd)) as [Hb _].
  rewrite (Hb _ _ (scanned_figure nodes i fig img Hi Himg)). done.
Qed.

Lemma bound_handlers_S (p k : nat) :
  bound_handlers p (S k) = bound_handlers p k ++ [OnClick p; OnKeydown p].
Proof.
  unfold bound_handlers. rewrite replicate_S_end, concat_app. simpl. done.
Qed.

(** The state after the first scan and [k] refreshes of a gallery that
    did not change. *)
Lemma refreshed_state (nodes : list Item) (i : nat) (fig : Item) (img : Img)
    (lightbox : option string) (image : option LbImage) (caption : option string)
    (stage : bool) (overflow : string) (k : nat) :
  NoDup (item_id <$> nodes) -> nodes !! i = Some fig -> item_img fig = Some img ->
  let s := run (replicate k ApiRefresh)
               (loaded (Some nodes) lightbox image caption stage overflow) in
  galleryContainer s = Some nodes /\
  images s = scanned nodes 0 /\
  figures s = el <$> scanned nodes 0 /\
  lb s = lightbox /\
  isOpen s = false /\
  props s (item_id fig) = mkElemProps true (bound_handlers (entries_before nodes i) (S k)).
Proof.
  intros Hnd Hi Himg. unfold run.
  induction k as [|k IH].
  - simpl. unfold loaded.
    split; [now rewrite scanGallery_frame|].
    split; [now rewrite (scanGallery_images _ nodes)|].
    split; [now rewrite (scanGallery_figures _ nodes)|].
    split; [now rewrite scanGallery_frame|].
    split; [now rewrite scanGallery_frame|].
    now apply (loaded_listeners nodes i fig img).
  - rewrite replicate_S_end, foldl_snoc.
    set (s := foldl _ _ _) in *. simpl in IH.
    destruct IH as (Hg & Hi' & Hf & Hl & Ho & Hp). simpl.
    split; [now rewrite refreshGallery_frame|].
    split. { destruct (refreshGallery_lists s) as [_ ->]. now rewrite Hg. }
    split. { destruct (refreshGallery_lists s) as [-> ->]. now rewrite Hg. }
    split; [now rewrite refreshGallery_frame|].
    split; [now rewrite refreshGallery_frame|].
    rewrite (refreshGallery_adds_listeners s nodes i fig img Hg Hnd Hi Himg).
    + rewrite Hp, (bound_handlers_S _ (S k)). reflexivity.
    + rewrite Hf. eapply list_elem_of_lookup_2. now apply (scanned_figure nodes i fig img).
Qed.

(** X7: on a gallery of distinct items that does not change, the first
    scan and [k] refreshes leave [k + 1] click listeners and [k + 1] key
    listeners on every item with an image, all for the item's place in
    the entry list. *)
Theorem every_refresh_binds_again (nodes : list Item) (i : nat) (fig : Item) (img : Img)
    (lightbox : option string) (image : option LbImage) (caption : option string)
    (stage : bool) (overflow : string) (k : nat) :
  NoDup (item_id <$> nodes) -> nodes !! i = Some fig -> item_img fig = Some img ->
  listeners (props (run (replicate k ApiRefresh)
                        (loaded (Some nodes) lightbox image caption stage overflow))
                   (item_id fig))
    = bound_handlers (entries_before nodes i) (S k) /\
  length (bound_handlers (entries_before nodes i) (S k)) = (2 * (k + 1))%nat.
Proof.
  intros Hnd Hi Himg.
  destruct (refreshed_state nodes i fig img lightbox image caption stage overflow k
              Hnd Hi Himg) as (_ & _ & _ & _ & _ & ->).
  split; [done|]. unfold bound_handlers.
  induction k as [|k IH]; [done|].
  rewrite replicate_S_end, concat_app, length_app, IH. simpl. lia.
Qed.

(** ** Handlers that all open the same entry *)

Lemma openAt_same_index (s : State) (p : Z) :
  images s <> [] -> is_Some (lb s) ->
  images (exec (openAt p) s) = images s /\
  is_Some (lb (exec (openAt p) s)) /\
  isOpen (exec (openAt p) s) = true /\
  current (exec (openAt p) s) = p mod images_length s.
Proof.
  intros Hne [a Hlb]. pose proof (images_length_pos s Hne) as Hn.
  split; [apply openAt_keeps_images|].
  split; [rewrite (openAt_lb s p a Hne Hlb); eauto|].
  split; [now apply (openAt_isOpen s p a)|].
  rewrite (openAt_current s p a Hne Hlb). now apply wrap_index.
Qed.

Lemma call_same_index (h : Listener -> M unit) (fires : Listener -> bool) (p : Z)
    (ls : list Listener) (s : State) :
  images s <> [] -> is_Some (lb s) ->
  (forall l, l ∈ ls -> if fires l then h l = openAt p else h l = ret tt) ->
  images (call_listeners h ls s) = images s /\
  is_Some (lb (call_listeners h ls s)) /\
  if existsb fires ls
  then isOpen (call_listeners h ls s) = true /\
       current (call_listeners h ls s) = p mod images_length s
  else call_listeners h ls s = s.
Proof.
  revert s. induction ls as [|l rest IH]; intros s Hne Hlb Hh; [done|].
  simpl. pose proof (Hh l ltac:(apply elem_of_cons; now left)) as Hl.
  assert (forall x, x ∈ rest -> if fires x then h x = openAt p else h x = ret tt) as Hrest.
  { intros x Hx. apply Hh. apply elem_of_cons. now right. }
  destruct (fires l); rewrite Hl; simpl.
  - destruct (openAt_same_index s p Hne Hlb) as (Hi & Hb & Ho & Hc).
    destruct (IH (exec (openAt p) s)) as (Hi' & Hb' & Hrest'); [congruence|done|done|].
    split; [congruence|]. split; [done|].
    destruct (existsb fires rest).
    + destruct Hrest' as [Ho' Hc']. split; [done|].
      rewrite Hc'. unfold images_length. now rewrite Hi.
    + now rewrite Hrest'.
  - now apply IH.
Qed.

(** X8: on a page with the lightbox element and a gallery of distinct
    items, after the first scan and any number of refreshes, a click on
    an item with an image, or Enter or Space on it, opens the viewer at
    that item's own entry. *)
Theorem activating_an_item_opens_its_entry (nodes : list Item) (i : nat) (fig : Item)
    (img : Img) (a : string) (image : option LbImage) (caption : option string)
    (stage : bool) (overflow : string) (k : nat) (ev : Event) :
  NoDup (item_id <$> nodes) -> nodes !! i = Some fig -> item_img fig = Some img ->
  ev = ClickFigure (item_id fig) \/
  ev = KeydownFigure (item_id fig) "Enter" \/
  ev = KeydownFigure (item_id fig) " " ->
  isOpen (step ev (run (replicate k ApiRefresh)
                       (loaded (Some nodes) (Some a) image caption stage overflow))) = true /\
  current (step ev (run (replicate k ApiRefresh)
                        (loaded (Some nodes) (Some a) image caption stage overflow)))
    = Z.of_nat (entries_before nodes i) /\
  images (step ev (run (replicate k ApiRefresh)
                       (loaded (Some nodes) (Some a) image caption stage overflow)))
    !! entries_before nodes i = Some (entry_of fig img i).
Proof.
  intros Hnd Hi Himg Hev.
  destruct (refreshed_state nodes i fig img (Some a) image caption stage overflow k
              Hnd Hi Himg) as (Hg & Hims & Hf & Hlb & Ho & Hp).
  set (s := run _ _) in *. set (p := entries_before nodes i) in *.
  pose proof (scanned_lookup nodes 0 i fig img Hi Himg) as Hlook. fold p in Hlook.
  simpl in Hlook.
  assert (images s <> []) as Hne.
  { rewrite Hims. intros E. now rewrite E in Hlook. }
  assert (Z.of_nat p mod images_length s = Z.of_nat p) as Hmod.
  { apply Z.mod_small. unfold images_length. rewrite Hims.
    apply lookup_lt_Some in Hlook. lia. }
  assert (forall (h : Listener -> M unit) (fires : Listener -> bool),
            (forall l, l ∈ bound_handlers p (S k) ->
                       if fires l then h l = openAt (Z.of_nat p) else h l = ret tt) ->
            existsb fires (bound_handlers p (S k)) = true ->
            let s' := call_listeners h (listeners (props s (item_id fig))) s in
            images s' = images s /\ isOpen s' = true /\ current s' = Z.of_nat p) as Hcall.
  { intros h fires Hh Hex. rewrite Hp. simpl.
    destruct (call_same_index h fires (Z.of_nat p) (bound_handlers p (S k)) s Hne
                ltac:(rewrite Hlb; eauto) Hh) as (H1 & _ & H3).
    rewrite Hex in H3. destruct H3 as [H3 H4]. now rewrite Hmod in H4. }
  assert (forall l, l ∈ bound_handlers p (S k) -> l = OnClick p \/ l = OnKeydown p) as Hmem.
  { intros l. generalize (S k). intros n. induction n as [|n IH].
    - intros Hl. now apply elem_of_nil in Hl.
    - rewrite bound_handlers_S, elem_of_app, !elem_of_cons, elem_of_nil. tauto. }
  assert (forall key, key = "Enter" \/ key = " " ->
            let s' := step (KeydownFigure (item_id fig) key) s in
            images s' = images s /\ isOpen s' = true /\ current s' = Z.of_nat p) as Hkey.
  { intros key Hk. simpl.
    destruct (Hcall (on_keydown key)
                (fun l => match l with OnKeydown _ => true | OnClick _ => false end))
      as (H1 & H2 & H3).
    - intros l Hl. destruct (Hmem l Hl) as [-> | ->]; simpl; [done|].
      destruct Hk as [-> | ->]; done.
    - unfold bound_handlers. now rewrite replicate_S.
    - set (s1 := call_listeners _ _ s) in *.
      assert (exec (document_keydown key) s1 = s1) as ->; [|done].
      unfold exec, document_keydown, bind, get; simpl. rewrite H2; simpl.
      destruct Hk as [-> | ->]; done. }
  assert (let s' := step ev s in
          images s' = images s /\ isOpen s' = true /\ current s' = Z.of_nat p) as (H1 & H2 & H3).
  { destruct Hev as [-> | [-> | ->]]; [|apply Hkey; auto..].
    simpl. apply (Hcall on_click
                    (fun l => match l with OnClick _ => true | OnKeydown _ => false end)).
    - intros l Hl. destruct (Hmem l Hl) as [-> | ->]; done.
    - unfold bound_handlers. now rewrite replicate_S. }
  split; [done|]. split; [done|]. now rewrite H1, Hims.
Qed.

(** X10: [openAt] only sees the index modulo the number of entries:
    [openAt(i + k * N)] does exactly what [openAt(i)] does, and for
    [0 <= i < N] on a page with the lightbox the current index becomes
    [i] itself. *)
Theorem openAt_is_periodic (s : State) (i k : Z) :
  images s <> [] ->
  openAt (i + k * images_length s) s = openAt i s /\
  (is_Some (lb s) -> 0 <= i < images_length s -> current (exec (openAt i) s) = i).
Proof.
  intros Hne. pose proof (images_length_pos s Hne) as Hn. split.
  - destruct (lb s) as [a|] eqn:Hlb.
    + rewrite !(openAt_run s _ a Hne Hlb).
      rewrite !(wrap_index _ Hn). now rewrite Z.mod_add by lia.
    + now rewrite !openAt_no_lightbox.
  - intros [a Hlb] Hi. rewrite (openAt_current s i a Hne Hlb).
    rewrite (wrap_index _ Hn). now apply Z.mod_small.
Qed.

(** X11: from a valid index, [prev()] after [next()] and [next()]
    after [prev()] give the index back and leave the entry list as it
    was. *)
Theorem prev_undoes_next (s : State) :
  images s <> [] -> 0 <= current s < images_length s ->
  current (exec prev (exec next s)) = current s /\
  current (exec next (exec prev s)) = current s /\
  images (exec prev (exec next s)) = images s /\
  images (exec next (exec prev s)) = images s.
Proof.
  intros Hne Hc. pose proof (images_length_pos s Hne) as Hn.
  pose proof (next_keeps_images s) as Hin. pose proof (prev_keeps_images s) as Hip.
  pose proof (images_length_keeps next s next_keeps_images) as Hln.
  pose proof (images_length_keeps prev s prev_keeps_images) as Hlp.
  pose proof (next_in_range s Hne ltac:(lia)) as Hrn.
  pose proof (prev_in_range s Hne ltac:(lia)) as Hrp.
  assert (images (exec next s) <> []) as Hnn by congruence.
  assert (images (exec prev s) <> []) as Hnp by congruence.
  assert (current (exec next s) = (current s + 1) mod images_length s) as En.
  { rewrite (next_current s Hne). apply forward_index; lia. }
  assert (current (exec prev s) = (current s - 1) mod images_length s) as Ep.
  { rewrite (prev_current s Hne). apply backward_index; lia. }
  split; [|split; [|split]].
  - rewrite (prev_current _ Hnn), Hln, (backward_index _ Hn) by lia.
    rewrite En, Zminus_mod_idemp_l.
    replace (current s + 1 - 1) with (current s) by lia. apply Z.mod_small; lia.
  - rewrite (next_current _ Hnp), Hlp, (forward_index _ Hn) by lia.
    rewrite Ep, Zplus_mod_idemp_l.
    replace (current s - 1 + 1) with (current s) by lia. apply Z.mod_small; lia.
  - now rewrite prev_keeps_images.
  - now rewrite next_keeps_images.
Qed.

(** ** The newest handler runs last *)

(** A refresh binds every item that has an image and that was a figure
    before, or that no scan has bound yet: its listeners get the pair
    for its place in the new entry list, after the ones it had. *)
Lemma refreshGallery_binds (s : State) (nodes : list Item) (i : nat)
    (fig : Item) (img : Img) :
  galleryContainer s = Some nodes -> NoDup (item_id <$> nodes) ->
  nodes !! i = Some fig -> item_img fig = Some img ->
  item_id fig ∈ figures s \/ bound (props s (item_id fig)) = false ->
  props (exec refreshGallery s) (item_id fig) =
  mkElemProps true
    (listeners (props s (item_id fig)) ++
     [OnClick (entries_before nodes i); OnKeydown (entries_before nodes i)]).
Proof.
  intros Hg Hnd Hi Himg Hin. rewrite refreshGallery_run.
  set (s1 := exec (forEach_from _ (figures s) 0) s).
  assert (galleryContainer s1 = Some nodes) as Hg1.
  { subst s1. now rewrite clear_loop_frame. }
  assert (bound (props s1 (item_id fig)) = false /\
          listeners (props s1 (item_id fig)) = listeners (props s (item_id fig)))
    as [Hb1 Hl1].
  { subst s1. rewrite clear_loop_props.
    destruct (decide (item_id fig ∈ figures s)) as [|Hn]; [done|].
    destruct Hin as [|Hb]; [done | now rewrite Hb]. }
  rewrite (scanGallery_run s1 nodes Hg1).
  destruct (bind_loop_props (el <$> scanned nodes 0) 0
              (set_images (scanned nodes 0) (set_figures (el <$> scanned nodes 0) s1))
              (scanned_el_NoDup nodes 0 Hnd)) as [Hb _].
  rewrite (Hb _ _ (scanned_figure nodes i fig img Hi Himg)).
  change (props (set_images _ (set_figures _ s1)) (item_id fig))
    with (props s1 (item_id fig)).
  now rewrite Hb1, Hl1.
Qed.

Lemma openAt_keeps_lightbox (i : Z) (s : State) :
  is_Some (lb s) -> is_Some (lb (exec (openAt i) s)).
Proof.
  intros [a Hlb]. destruct (images s) as [|e0 l] eqn:Him.
  - unfold exec. rewrite openAt_no_images by done. simpl. rewrite Hlb. eauto.
  - rewrite (openAt_lb s i a) by congruence. eauto.
Qed.

Lemma call_listeners_keeps_lists (h : Listener -> M unit) (ls : list Listener) (s : State) :
  (forall l, h l = ret tt \/ exists i, h l = openAt i) ->
  is_Some (lb s) ->
  images (call_listeners h ls s) = images s /\ is_Some (lb (call_listeners h ls s)).
Proof.
  intros Hh. revert s. induction ls as [|l rest IH]; intros s Hlb; [done|].
  simpl. destruct (Hh l) as [-> | [i ->]].
  - now apply IH.
  - destruct (IH (exec (openAt i) s)) as [H1 H2]; [now apply openAt_keeps_lightbox|].
    split; [|done]. rewrite H1. apply openAt_keeps_images.
Qed.

Lemma call_listeners_app (h : Listener -> M unit) (l1 l2 : list Listener) (s : State) :
  call_listeners h (l1 ++ l2) s = call_listeners h l2 (call_listeners h l1 s).
Proof. revert s. induction l1 as [|l rest IH]; intros s; [done|]. simpl. apply IH. Qed.

Lemma on_click_shape (l : Listener) :
  on_click l = ret tt \/ exists i, on_click l = openAt i.
Proof. destruct l; simpl; eauto. Qed.

Lemma on_keydown_shape (key : string) (l : Listener) :
  on_keydown key l = ret tt \/ exists i, on_keydown key l = openAt i.
Proof. destruct l; simpl; [eauto|]. destruct (_ || _); eauto. Qed.

(** X9: after a refresh of a gallery that may have changed, a click,
    Enter or Space on an item with an image opens the viewer at the
    item's entry in the new list, whatever older listeners the item
    still has, as long as the item was a figure before the refresh or
    no scan has bound it yet: the listener bound last runs last. *)
Theorem after_a_refresh_the_newest_handler_wins (s : State) (nodes : list Item)
    (i : nat) (fig : Item) (img : Img) (ev : Event) :
  galleryContainer s = Some nodes -> NoDup (item_id <$> nodes) ->
  nodes !! i = Some fig -> item_img fig = Some img ->
  item_id fig ∈ figures s \/ bound (props s (item_id fig)) = false ->
  is_Some (lb s) ->
  ev = ClickFigure (item_id fig) \/
  ev = KeydownFigure (item_id fig) "Enter" \/
  ev = KeydownFigure (item_id fig) " " ->
  isOpen (step ev (step ApiRefresh s)) = true /\
  current (step ev (step ApiRefresh s)) = Z.of_nat (entries_before nodes i) /\
  images (step ev (step ApiRefresh s)) !! entries_before nodes i
    = Some (entry_of fig img i).
Proof.
  intros Hg Hnd Hi Himg Hin Hlb Hev.
  pose proof (refreshGallery_binds s nodes i fig img Hg Hnd Hi Himg Hin) as Hp.
  destruct (refreshGallery_lists s) as [_ Hims]. rewrite Hg in Hims.
  assert (is_Some (lb (exec refreshGallery s))) as Hlb1 by now rewrite refreshGallery_frame.
  change (step ApiRefresh s) with (exec refreshGallery s).
  set (s1 := exec refreshGallery s) in *. set (p := entries_before nodes i) in *.
  pose proof (scanned_lookup nodes 0 i fig img Hi Himg) as Hlook. fold p in Hlook.
  simpl in Hlook.
  assert (images s1 <> []) as Hne.
  { rewrite Hims. intros E. now rewrite E in Hlook. }
  assert (Z.of_nat p mod images_length s1 = Z.of_nat p) as Hmod.
  { apply Z.mod_small. unfold images_length. rewrite Hims.
    apply lookup_lt_Some in Hlook. lia. }
  assert (forall key, key = "Enter" \/ key = " " ->
            on_keydown key (OnKeydown p) = openAt (Z.of_nat p)) as Hk.
  { intros key [-> | ->]; done. }
  assert (forall (h : Listener -> M unit),
            (forall l, h l = ret tt \/ exists j, h l = openAt j) ->
            (h (OnClick p) = openAt (Z.of_nat p) /\ h (OnKeydown p) = ret tt) \/
            (h (OnClick p) = ret tt /\ h (OnKeydown p) = openAt (Z.of_nat p)) ->
            let s' := call_listeners h (listeners (props s1 (item_id fig))) s1 in
            images s' = images s1 /\ isOpen s' = true /\ current s' = Z.of_nat p) as Hcall.
  { intros h Hh Hlast. rewrite Hp. cbn [listeners]. rewrite call_listeners_app.
    destruct (call_listeners_keeps_lists h (listeners (props s (item_id fig))) s1 Hh Hlb1)
      as [H1 H2].
    set (s2 := call_listeners h (listeners (props s (item_id fig))) s1) in *.
    assert (images s2 <> []) as Hne2 by congruence.
    destruct (openAt_same_index s2 (Z.of_nat p) Hne2 H2) as (Hi2 & _ & Ho2 & Hc2).
    assert (images_length s2 = images_length s1) as Hl2
      by (unfold images_length; now rewrite H1).
    rewrite Hl2, Hmod in Hc2.
    change (call_listeners h [OnClick p; OnKeydown p] s2)
      with (exec (h (OnKeydown p)) (exec (h (OnClick p)) s2)).
    destruct Hlast as [[-> ->] | [-> ->]].
    - change (exec (ret tt) (exec (openAt (Z.of_nat p)) s2))
        with (exec (openAt (Z.of_nat p)) s2).
      cbv zeta. split; [congruence | done].
    - change (exec (ret tt) s2) with s2.
      cbv zeta. split; [congruence | done]. }
  assert (let s' := step ev s1 in
          images s' = images s1 /\ isOpen s' = true /\ current s' = Z.of_nat p)
    as (H1 & H2 & H3).
  { destruct Hev as [-> | Hkey].
    - simpl. apply Hcall; [apply on_click_shape | left; done].
    - assert (exists key, ev = KeydownFigure (item_id fig) key /\
                          (key = "Enter" \/ key = " ")) as (key & -> & Hkey').
      { destruct Hkey as [-> | ->]; eauto. }
      simpl. destruct (Hcall (on_keydown key)) as (H1 & H2 & H3);
        [apply on_keydown_shape | right; split; [done | now apply Hk] |].
      set (s2 := call_listeners _ _ s1) in *.
      assert (exec (document_keydown key) s2 = s2) as ->; [|done].
      unfold exec, document_keydown, bind, get; simpl. rewrite H2; simpl.
      destruct Hkey' as [-> | ->]; done. }
  split; [done|]. split; [done|]. now rewrite H1, Hims.
Qed.

(** ** [debounce] *)

Section DebounceFacts.
Context {A : Type}.

Lemma filter_below (h : nat) (l : list (nat * A)) :
  Forall (fun p => (p.1 < h)%nat) l -> filter (fun p => p.1 <> h) l = l.
Proof.
  induction 1 as [|p l Hp Hl IH]; [done|].
  rewrite filter_cons, decide_True by lia. now rewrite IH.
Qed.

Lemma filter_below_eq (h : nat) (l : list (nat * A)) :
  Forall (fun p => (p.1 < h)%nat) l -> filter (fun p => p.1 = h) l = [].
Proof.
  induction 1 as [|p l Hp Hl IH]; [done|].
  rewrite filter_cons, decide_False by lia. done.
Qed.

Lemma clearTimeout_well_formed (t : option nat) (tab : Debounce.Table A) :
  Debounce.well_formed tab -> Debounce.well_formed (Debounce.clearTimeout t tab).
Proof.
  unfold Debounce.well_formed. destruct t as [h|]; simpl; [|done].
  intros H. induction H as [|p l Hp Hl IH]; [constructor|].
  rewrite filter_cons. destruct (decide _); [constructor|]; done.
Qed.

Lemma debounce_burst (tab : Debounce.Table A) (t : option nat) (a : A) (more : list A) :
  Debounce.well_formed tab ->
  exists h,
    (Debounce.next_handle tab <= h)%nat /\
    (Debounce.calls (a :: more) (tab, t)).2 = Some h /\
    Debounce.next_handle (Debounce.calls (a :: more) (tab, t)).1 = S h /\
    Debounce.pending (Debounce.calls (a :: more) (tab, t)).1
      = Debounce.pending (Debounce.clearTimeout t tab) ++ [(h, default a (last more))].
Proof.
  revert tab t a. induction more as [|b more IH]; intros tab t a Hwf.
  - exists (Debounce.next_handle tab). unfold Debounce.calls, Debounce.debounced; simpl.
    destruct t; simpl; done.
  - set (tab1 := (Debounce.debounced a (tab, t)).1).
    assert (Debounce.well_formed tab1) as Hwf1.
    { subst tab1. unfold Debounce.debounced, Debounce.well_formed; simpl.
      pose proof (clearTimeout_well_formed t tab Hwf) as Hc. unfold Debounce.well_formed in Hc.
      apply Forall_app. split.
      - eapply Forall_impl; [exact Hc|]. destruct t; simpl; intros; lia.
      - apply Forall_singleton. destruct t; simpl; lia. }
    destruct (IH tab1 (Some (Debounce.next_handle tab)) b Hwf1) as (h & Hh & H1 & H2 & H3).
    assert (Debounce.calls (a :: b :: more) (tab, t)
            = Debounce.calls (b :: more) (tab1, Some (Debounce.next_handle tab))) as ->.
    { unfold Debounce.calls; simpl. f_equal. subst tab1. unfold Debounce.debounced; simpl.
      destruct t; done. }
    assert (Debounce.next_handle tab1 = S (Debounce.next_handle tab)) as Hn1
      by (subst tab1; unfold Debounce.debounced; destruct t; done).
    exists h. split; [lia|]. split; [exact H1|]. split; [exact H2|].
    rewrite H3. f_equal.
    + subst tab1. unfold Debounce.debounced; simpl.
      pose proof (clearTimeout_well_formed t tab Hwf) as Hc. unfold Debounce.well_formed in Hc.
      assert (Debounce.next_handle (Debounce.clearTimeout t tab) = Debounce.next_handle tab) as E
        by (destruct t; done).
      rewrite E in *. rewrite filter_app, filter_cons, decide_False by (simpl; lia).
      rewrite filter_nil, app_nil_r. now apply filter_below.
    + f_equal. f_equal. rewrite last_cons. now destruct (last more).
Qed.

End DebounceFacts.

(** X12: a debounce_burst of calls of a debounced function, with no timeout
    firing in between, leaves one pending timeout of its own: that of
    the last call, after the timeouts of the rest of the page, which are
    untouched. When it fires the function gets the arguments of the
    last call, once. *)
Theorem debounce_coalesces_a_burst {A : Type} (tab : Debounce.Table A) (t : option nat)
    (a : A) (more : list A) :
  Debounce.well_formed tab ->
  exists h,
    (Debounce.calls (a :: more) (tab, t)).2 = Some h /\
    Debounce.pending (Debounce.calls (a :: more) (tab, t)).1
      = Debounce.pending (Debounce.clearTimeout t tab) ++ [(h, default a (last more))] /\
    Debounce.fire h (Debounce.calls (a :: more) (tab, t)).1
      = (Debounce.mkTable (S h) (Debounce.pending (Debounce.clearTimeout t tab)),
         Some (default a (last more))).
Proof.
  intros Hwf. destruct (debounce_burst tab t a more Hwf) as (h & Hh & H1 & H2 & H3).
  exists h. split; [exact H1|]. split; [exact H3|].
  unfold Debounce.fire. rewrite H2, H3, !filter_app.
  pose proof (clearTimeout_well_formed t tab Hwf) as Hc. unfold Debounce.well_formed in Hc.
  assert (Forall (fun p : nat * A => (p.1 < h)%nat)
                 (Debounce.pending (Debounce.clearTimeout t tab))) as Hlt.
  { eapply Forall_impl; [exact Hc|]. intros p Hp. simpl in *.
    assert (Debounce.next_handle (Debounce.clearTimeout t tab) = Debounce.next_handle tab)
      as E by (destruct t; done).
    lia. }
  rewrite (filter_below h _ Hlt), (filter_below_eq h _ Hlt).
  rewrite !filter_cons, !filter_nil. simpl.
  rewrite decide_False by (intros E; now apply E).
  rewrite decide_True by done. now rewrite app_nil_r.
Qed.

Lemma nav_step_in_sync (ev : Navbar.NavEvent) (n : Navbar.Nav) :
  Navbar.in_sync n -> Navbar.in_sync (Navbar.nav_step ev n).
Proof.
  intros [H1 H2]. destruct n as [lo to ae al]; simpl in *.
  destruct ev as [|link tag|key]; simpl.
  - unfold Navbar.in_sync; simpl. now destruct lo.
  - unfold Navbar.delegated_click. destruct link; simpl;
      destruct (bool_decide (tag = "A")), lo; simpl; done.
  - unfold Navbar.escape_key.
    destruct (bool_decide (key = "Escape")), lo; simpl; done.
Qed.

Lemma nav_run_in_sync (evs : list Navbar.NavEvent) (n : Navbar.Nav) :
  Navbar.in_sync n -> Navbar.in_sync (Navbar.nav_run evs n).
Proof.
  revert n. induction evs as [|ev rest IH]; intros n Hn; [done|].
  simpl. apply IH. now apply nav_step_in_sync.
Qed.

(** X13: the navbar. Once the toggle has been clicked, the class
    [open] on the links, the class [open] on the toggle and
    [aria-expanded] agree after every later event. A toggle click flips
    the menu; Escape on a closed menu changes nothing; a click in the
    links on an element that is not an anchor leaves the menu as it is;
    a click on an anchor and Escape leave it closed. *)
Theorem navbar_stays_in_sync (before after : list Navbar.NavEvent) (n : Navbar.Nav) :
  Navbar.in_sync (Navbar.nav_run (before ++ Navbar.ToggleClick :: after) n) /\
  Navbar.linksOpen (Navbar.nav_step Navbar.ToggleClick n) = negb (Navbar.linksOpen n) /\
  (forall key, Navbar.linksOpen n = false ->
     Navbar.nav_step (Navbar.NavKeydown key) n = n) /\
  (forall link tagName, tagName <> "A" ->
     Navbar.linksOpen (Navbar.nav_step (Navbar.LinksClick link tagName) n)
       = Navbar.linksOpen n) /\
  (forall link,
     Navbar.linksOpen (Navbar.nav_step (Navbar.LinksClick link "A") n) = false /\
     Navbar.linksOpen (Navbar.nav_step (Navbar.NavKeydown "Escape") n) = false).
Proof.
  split; [|split; [reflexivity|split; [|split]]].
  - unfold Navbar.nav_run. rewrite foldl_app. simpl.
    apply nav_run_in_sync. unfold Navbar.in_sync, Navbar.toggle_click; simpl.
    now destruct (negb _).
  - intros key Hc. simpl. unfold Navbar.escape_key. rewrite Hc.
    now destruct (bool_decide (key = "Escape")).
  - intros link tag Ht. simpl. unfold Navbar.delegated_click.
    rewrite bool_decide_eq_false_2 by done. now destruct link.
  - intros link. simpl. unfold Navbar.delegated_click, Navbar.escape_key.
    rewrite !bool_decide_eq_true_2 by done.
    split; [destruct link|]; simpl; now destruct n as [[] ? ? ?].
Qed.

(** X14: a click on one of the navbar's links leaves the class
    [active] on that link and on no other. *)
Theorem clicked_link_is_the_only_active_one (j : nat) (tagName : string) (n : Navbar.Nav) :
  (j < length (Navbar.activeLinks n))%nat ->
  length (Navbar.activeLinks (Navbar.nav_step (Navbar.LinksClick (Some j) tagName) n))
    = length (Navbar.activeLinks n) /\
  forall i, (i < length (Navbar.activeLinks n))%nat ->
    Navbar.activeLinks (Navbar.nav_step (Navbar.LinksClick (Some j) tagName) n) !! i
      = Some (bool_decide (i = j)).
Proof.
  intros Hj.
  assert (Navbar.activeLinks (Navbar.nav_step (Navbar.LinksClick (Some j) tagName) n)
          = <[j := true]> ((fun _ => false) <$> Navbar.activeLinks n)) as ->.
  { simpl. unfold Navbar.delegated_click. now destruct (_ && _). }
  split; [now rewrite length_insert, length_fmap|].
  intros i Hi. destruct (decide (i = j)) as [->|Hne].
  - rewrite list_lookup_insert_eq by now rewrite length_fmap.
    now rewrite bool_decide_eq_true_2.
  - rewrite list_lookup_insert_ne by done. rewrite list_lookup_fmap.
    destruct (lookup_lt_is_Some_2 _ _ Hi) as [b ->]. simpl.
    now rewrite bool_decide_eq_false_2.
Qed.

Section SearchFacts.
Variable toLowerCase : string -> string.
Variable includes : string -> string -> bool.

Lemma filter_loop_named (filter : string) (items : list Search.GalleryItem) :
  Forall (fun it => is_Some (Search.data_name it)) items ->
  Search.filter_loop toLowerCase includes filter items =
  ((fun it => Search.mkGalleryItem (Search.data_name it)
                (if includes (toLowerCase (default "" (Search.data_name it))) filter
                 then "" else "none")) <$> items, true).
Proof.
  induction 1 as [|it rest [name Hn] Hrest IH]; [done|].
  simpl. unfold Search.filter_item. rewrite Hn, IH. simpl. done.
Qed.

(** X15: the search filter stops at the first gallery item without a
    [data-name] attribute: the items before it are shown or hidden by
    their lower-cased name, that item and all after it keep the display
    they had, and the handler ends with an exception. When every item
    has the attribute the handler completes and sets every display to
    the empty string or to "none". *)
Theorem search_stops_at_an_item_without_name (value : string)
    (named : list Search.GalleryItem) (it : Search.GalleryItem)
    (rest : list Search.GalleryItem) :
  Forall (fun x => is_Some (Search.data_name x)) named ->
  Search.data_name it = None ->
  Search.keyup toLowerCase includes value (named ++ it :: rest) =
  ((Search.keyup toLowerCase includes value named).1 ++ it :: rest, false) /\
  Search.keyup toLowerCase includes value named =
  ((fun x => Search.mkGalleryItem (Search.data_name x)
               (if includes (toLowerCase (default "" (Search.data_name x)))
                            (toLowerCase value)
                then "" else "none")) <$> named, true).
Proof.
  intros Hnamed Hit. unfold Search.keyup. split; [|now apply filter_loop_named].
  induction Hnamed as [|x l [name Hx] Hl IH]; simpl.
  - unfold Search.filter_item. now rewrite Hit.
  - unfold Search.filter_item. rewrite Hx. fold (Search.filter_item toLowerCase includes).
    rewrite IH.
    now destruct (Search.filter_loop toLowerCase includes (toLowerCase value) l).
Qed.

(** X16: with an empty search box every named item is shown again with
    the display "", also after the show-all button had set it to
    "block". *)
Theorem empty_search_shows_every_item (items : list Search.GalleryItem) :
  toLowerCase "" = "" -> (forall s, includes s "" = true) ->
  Forall (fun x => is_Some (Search.data_name x)) items ->
  Search.keyup toLowerCase includes "" (Search.show_all_click items) =
  ((fun x => Search.mkGalleryItem (Search.data_name x) "") <$> items, true) /\
  Search.keyup toLowerCase includes "" items =
  ((fun x => Search.mkGalleryItem (Search.data_name x) "") <$> items, true).
Proof.
  intros Hl Hi Hnamed. unfold Search.keyup.
  assert (forall l, Forall (fun x => is_Some (Search.data_name x)) l ->
            Search.filter_loop toLowerCase includes (toLowerCase "") l =
            ((fun x => Search.mkGalleryItem (Search.data_name x) "") <$> l, true)) as H.
  { intros l Hn. rewrite (filter_loop_named _ l Hn). f_equal.
    apply list_fmap_ext. intros i x _. now rewrite Hl, Hi. }
  split; [|now apply H].
  rewrite H.
  - unfold Search.show_all_click. rewrite <- list_fmap_compose. done.
  - unfold Search.show_all_click. apply Forall_fmap. eapply Forall_impl; [exact Hnamed|]. done.
Qed.

End SearchFacts.

(** * Instances of the further properties *)

(** X1, witness: the three-photo page after [openAt(0)]; the update
    shows A and fetches C and B. *)
Lemma pending_update_shows_its_entry_witness :
  reachable opened_page /\
  timers opened_page = [Some (mkEntry "A" "A" "Image 1" 1)] /\
  images opened_page <> [] /\
  fetches (step TimerFires opened_page) = ["C"; "B"].
Proof.
  assert (reachable opened_page) as Hr by apply reachable_step, reachable_loaded.
  assert (images opened_page <> []) as Hne by discriminate.
  split; [exact Hr|]. split; [reflexivity|]. split; [exact Hne|].
  destruct (pending_update_shows_its_entry opened_page
              (Some (mkEntry "A" "A" "Image 1" 1)) [] Hr eq_refl Hne)
    as (e & im & e1 & e2 & _ & _ & L1 & L2 & _ & Hs).
  vm_compute in L1. vm_compute in L2.
  injection L1 as <-. injection L2 as <-. rewrite Hs. reflexivity.
Defined.

(** X2, witness: the page whose only item went away after [openAt(0)]. *)
Lemma pending_update_on_emptied_list_witness :
  reachable emptied_page /\
  timers emptied_page = [Some (mkEntry "A" "A" "Image 1" 1)] /\
  images emptied_page = [] /\
  fetches (step TimerFires emptied_page) = [].
Proof.
  assert (reachable emptied_page) as Hr by apply reachable_run, reachable_loaded.
  split; [exact Hr|]. split; [reflexivity|]. split; [reflexivity|].
  destruct (pending_update_on_emptied_list emptied_page
              (Some (mkEntry "A" "A" "Image 1" 1)) [] Hr eq_refl eq_refl)
    as (e & im & _ & _ & _ & Hs).
  rewrite Hs. reflexivity.
Defined.

(** X3, witness: Escape on the opened three-photo page. *)
Lemma keyboard_router_witness :
  reachable opened_page /\
  isOpen (step (Keydown "Escape") opened_page) = false.
Proof.
  assert (reachable opened_page) as Hr by apply reachable_step, reachable_loaded.
  split; [exact Hr|].
  destruct (keyboard_router opened_page "Escape" Hr) as (_ & _ & _ & H).
  destruct (H eq_refl) as (_ & _ & _ & Hc & _). exact Hc.
Defined.

(** X4, witness: a drag of 70 pixels to the left on the three-photo
    page moves from entry 0 to entry 1. *)
Lemma swipe_gesture_witness :
  reachable (with_lightbox three_photos) /\
  active (pointerSwipe (with_lightbox three_photos)) = false /\
  current (run [PointerDown 100; PointerMove 30; PointerUp]
               (with_lightbox three_photos)) = 1.
Proof.
  assert (reachable (with_lightbox three_photos)) as Hr by apply reachable_loaded.
  split; [exact Hr|]. split; [reflexivity|].
  rewrite (proj1 (swipe_gesture (with_lightbox three_photos) 100 30 Hr eq_refl)).
  reflexivity.
Defined.

(** X5, witness: the opened three-photo page. *)
Lemma entries_follow_the_gallery_witness :
  reachable opened_page /\ figures opened_page = el <$> images opened_page.
Proof.
  assert (reachable opened_page) as Hr by apply reachable_step, reachable_loaded.
  split; [exact Hr|]. exact (proj1 (entries_follow_the_gallery opened_page Hr)).
Defined.

(** X7, witness: the second of three photos after two refreshes. *)
Lemma every_refresh_binds_again_witness :
  NoDup (item_id <$> three_photos) /\
  three_photos !! 1%nat = Some (photo 2 "B") /\
  listeners (props (run [ApiRefresh; ApiRefresh] (with_lightbox three_photos)) 2)
    = [OnClick 1; OnKeydown 1; OnClick 1; OnKeydown 1; OnClick 1; OnKeydown 1].
Proof.
  assert (NoDup (item_id <$> three_photos)) as Hnd
    by (apply (bool_decide_unpack _); reflexivity).
  split; [exact Hnd|]. split; [reflexivity|].
  exact (proj1 (every_refresh_binds_again three_photos 1 (photo 2 "B")
                  (mkImg "B" None None) (Some "true") (Some blank_image) (Some "")
                  true "" 2 Hnd eq_refl eq_refl)).
Defined.

(** X8, witness: a click on the third photo after one refresh. *)
Lemma activating_an_item_opens_its_entry_witness :
  NoDup (item_id <$> three_photos) /\
  three_photos !! 2%nat = Some (photo 3 "C") /\
  current (step (ClickFigure 3) (run [ApiRefresh] (with_lightbox three_photos))) = 2.
Proof.
  assert (NoDup (item_id <$> three_photos)) as Hnd
    by (apply (bool_decide_unpack _); reflexivity).
  split; [exact Hnd|]. split; [reflexivity|].
  destruct (activating_an_item_opens_its_entry three_photos 2 (photo 3 "C")
              (mkImg "C" None None) "true" (Some blank_image) (Some "") true "" 1
              (ClickFigure 3) Hnd eq_refl eq_refl ltac:(now left)) as (_ & Hc & _).
  exact Hc.
Defined.

(** X9, witness: the gallery grows from one to three photos; after the
    refresh a click on the new third photo opens entry 2. *)
Lemma after_a_refresh_the_newest_handler_wins_witness :
  galleryContainer (step (GalleryMutated three_photos) (with_lightbox one_photo))
    = Some three_photos /\
  NoDup (item_id <$> three_photos) /\
  three_photos !! 2%nat = Some (photo 3 "C") /\
  bound (props (step (GalleryMutated three_photos) (with_lightbox one_photo)) 3) = false /\
  current (step (ClickFigure 3)
             (step ApiRefresh
                (step (GalleryMutated three_photos) (with_lightbox one_photo)))) = 2.
Proof.
  assert (NoDup (item_id <$> three_photos)) as Hnd
    by (apply (bool_decide_unpack _); reflexivity).
  split; [reflexivity|]. split; [exact Hnd|]. split; [reflexivity|].
  split; [reflexivity|].
  destruct (after_a_refresh_the_newest_handler_wins
              (step (GalleryMutated three_photos) (with_lightbox one_photo))
              three_photos 2 (photo 3 "C") (mkImg "C" None None) (ClickFigure 3)
              eq_refl Hnd eq_refl eq_refl ltac:(right; reflexivity)
              ltac:(eexists; reflexivity) ltac:(now left)) as (_ & Hc & _).
  exact Hc.
Defined.

(** X10, witness: [openAt(7)] and [openAt(1)] on three photos. *)
Lemma openAt_is_periodic_witness :
  images (with_lightbox three_photos) <> [] /\
  openAt (1 + 2 * 3) (with_lightbox three_photos) = openAt 1 (with_lightbox three_photos).
Proof.
  assert (images (with_lightbox three_photos) <> []) as Hne by discriminate.
  split; [exact Hne|].
  exact (proj1 (openAt_is_periodic (with_lightbox three_photos) 1 2 Hne)).
Defined.

(** X11, witness: the opened three-photo page, at index 0. *)
Lemma prev_undoes_next_witness :
  images opened_page <> [] /\
  0 <= current opened_page < images_length opened_page /\
  current (exec prev (exec next opened_page)) = current opened_page.
Proof.
  assert (images opened_page <> []) as Hne by discriminate.
  assert (0 <= current opened_page < images_length opened_page) as Hc
    by (vm_compute; split; [discriminate | reflexivity]).
  split; [exact Hne|]. split; [exact Hc|].
  exact (proj1 (prev_undoes_next opened_page Hne Hc)).
Defined.

(** X12, witness: three calls on a page without pending timeouts. *)
Lemma debounce_coalesces_a_burst_witness :
  Debounce.well_formed (Debounce.mkTable 0 ([] : list (nat * string))) /\
  Debounce.pending
    (Debounce.calls ["a"; "b"; "c"] (Debounce.mkTable 0 [], None)).1 = [(2%nat, "c")].
Proof.
  assert (Debounce.well_formed (Debounce.mkTable 0 ([] : list (nat * string)))) as Hwf
    by constructor.
  split; [exact Hwf|].
  destruct (debounce_coalesces_a_burst (Debounce.mkTable 0 []) None "a" ["b"; "c"] Hwf)
    as (h & Hh & Hp & _).
  rewrite Hp. injection Hh as <-. reflexivity.
Defined.

(** X14, witness: the second of three links. *)
Lemma clicked_link_is_the_only_active_one_witness :
  (1 < length (Navbar.activeLinks three_links))%nat /\
  Navbar.activeLinks (Navbar.nav_step (Navbar.LinksClick (Some 1%nat) "A") three_links)
    = [false; true; false].
Proof.
  split; [simpl; lia|].
  destruct (clicked_link_is_the_only_active_one 1 "A" three_links ltac:(simpl; lia))
    as [_ H].
  reflexivity.
Defined.

(** X15, witness: the filter "s" on three items, the second without a
    name, with the identity for lower-casing and a test that finds
    nothing: the first item is hidden, the others keep their display. *)
Lemma search_stops_at_an_item_without_name_witness :
  Forall (fun x => is_Some (Search.data_name x)) [Search.mkGalleryItem (Some "Sea") ""] /\
  Search.keyup (fun s => s) (fun _ _ => false) "s" named_and_unnamed
    = ([Search.mkGalleryItem (Some "Sea") "none";
        Search.mkGalleryItem None "";
        Search.mkGalleryItem (Some "Sky") ""], false).
Proof.
  assert (Forall (fun x => is_Some (Search.data_name x))
                 [Search.mkGalleryItem (Some "Sea") ""]) as Hn
    by (repeat constructor; eexists; reflexivity).
  split; [exact Hn|].
  exact (proj1 (search_stops_at_an_item_without_name (fun s => s) (fun _ _ => false) "s"
                  [Search.mkGalleryItem (Some "Sea") ""] (Search.mkGalleryItem None "")
                  [Search.mkGalleryItem (Some "Sky") ""] Hn eq_refl)).
Defined.

(** X16, witness: one named item, with the identity for lower-casing
    and a test that finds the empty string everywhere. *)
Lemma empty_search_shows_every_item_witness :
  (fun s : string => s) "" = "" /\
  (forall s : string, bool_decide ("" = "") = true) /\
  Search.keyup (fun s => s) (fun _ f => bool_decide (f = "")) ""
    (Search.show_all_click [Search.mkGalleryItem (Some "Sea") "none"])
    = ([Search.mkGalleryItem (Some "Sea") ""], true).
Proof.
  split; [reflexivity|]. split; [reflexivity|].
  exact (proj1 (empty_search_shows_every_item (fun s => s) (fun _ f => bool_decide (f = ""))
                  [Search.mkGalleryItem (Some "Sea") "none"] eq_refl
                  (fun _ => eq_refl)
                  ltac:(repeat constructor; eexists; reflexivity))).
Defined.
